(** * The `yarn version check` command (plugin-version, check.tsx)

    A shallow embedding of the classification of bumped workspaces, of the
    one-hop propagation over the dependency graph, of the report mode and
    of the interactive decision session, followed by the properties the
    specification states about them. *)

From Stdlib Require Import ZArith Lia Ascii String.
From stdpp Require Import base decidable option list strings pretty gmap
  sorting.

Local Open Scope string_scope.
Local Open Scope list_scope.
Set Warnings "-register-all".

(** ** ECMAScript values *)

(** ECMAScript numbers are IEEE doubles; the operations of the language the
    command applies to them are taken as an interface. *)
Class JSNumber := {
  number : Type;
  number_eq_dec :: EqDecision number;
  (** ToBoolean: false on +0, -0 and NaN. *)
  number_ToBoolean : number → bool;
  (** The strict equality [===] of two numbers. *)
  number_strict_eq : number → number → bool;
  (** [String(n)]. *)
  number_ToString : number → string;
}.

(** The [semver] package: [semver.prerelease(v)] gives the prerelease
    components of a version, or null. *)
Class Semver := {
  semver_prerelease : string → option (list string);
}.

Section Values.
Context `{JSNumber}.

(** What [manifest.raw] holds: a parsed JSON document, and [undefined] for
    what a property read gives on a missing key. The fields of an object
    are kept in insertion order, with unique keys. *)
Inductive value :=
  | VUndefined
  | VNull
  | VBool (b : bool)
  | VNumber (n : number)
  | VString (s : string)
  | VArray (elements : list value)
  | VObject (fields : list (string * value)).

Fixpoint value_eqb (x y : value) {struct x} : bool :=
  match x, y with
  | VUndefined, VUndefined => true
  | VNull, VNull => true
  | VBool a, VBool b => bool_decide (a = b)
  | VNumber a, VNumber b => bool_decide (a = b)
  | VString a, VString b => bool_decide (a = b)
  | VArray a, VArray b =>
      (fix go (a b : list value) {struct a} : bool :=
         match a, b with
         | [], [] => true
         | x :: a, y :: b => value_eqb x y && go a b
         | _, _ => false
         end) a b
  | VObject a, VObject b =>
      (fix go (a b : list (string * value)) {struct a} : bool :=
         match a, b with
         | [], [] => true
         | (k, x) :: a, (l, y) :: b =>
             bool_decide (k = l) && value_eqb x y && go a b
         | _, _ => false
         end) a b
  | _, _ => false
  end.

(** Induction over a document, with the hypothesis on every element of an
    array and on every field of an object. *)
Fixpoint value_rect' (P : value → Prop)
    (Hundefined : P VUndefined) (Hnull : P VNull)
    (Hbool : ∀ b, P (VBool b)) (Hnumber : ∀ n, P (VNumber n))
    (Hstring : ∀ s, P (VString s))
    (Harray : ∀ l, Forall P l → P (VArray l))
    (Hobject : ∀ l, Forall (λ kv, P kv.2) l → P (VObject l))
    (v : value) {struct v} : P v :=
  let rec := value_rect' P Hundefined Hnull Hbool Hnumber Hstring
               Harray Hobject in
  match v with
  | VUndefined => Hundefined
  | VNull => Hnull
  | VBool b => Hbool b
  | VNumber n => Hnumber n
  | VString s => Hstring s
  | VArray l =>
      Harray l
        ((fix go (l : list value) : Forall P l :=
            match l with
            | [] => @List.Forall_nil _ P
            | x :: r => @List.Forall_cons _ P x r (rec x) (go r)
            end) l)
  | VObject l =>
      Hobject l
        ((fix go (l : list (string * value)) : Forall (λ kv, P kv.2) l :=
            match l with
            | [] => @List.Forall_nil _ (λ kv, P kv.2)
            | kv :: r => @List.Forall_cons _ (λ kv, P kv.2) kv r (rec kv.2) (go r)
            end) l)
  end.

#[global] Instance value_eq_dec : EqDecision value.
Proof.
  assert (Heqb : ∀ x y, value_eqb x y = true ↔ x = y).
  { abstract (
      intros x; induction x as [| |b|n|s|l IH|l IH] using value_rect';
      intros [| |b'|n'|s'|l'|l']; simpl;
      try (split; [discriminate | congruence]); try tauto;
      try (rewrite bool_decide_eq_true; split; congruence);
      [ revert l'; induction IH as [|x l Hx _ IHl]; intros [|y l'];
          try (split; [discriminate | congruence]); try tauto;
          rewrite andb_true_iff, Hx; specialize (IHl l');
          split;
          [ intros [-> Hl]; apply IHl in Hl; congruence
          | intros [= -> ->]; split; [done|]; by apply IHl ]
      | revert l'; induction IH as [|[k x] l Hx _ IHl]; intros [|[k' y] l'];
          try (split; [discriminate | congruence]); try tauto;
          rewrite !andb_true_iff, bool_decide_eq_true; simpl in Hx;
          rewrite Hx; specialize (IHl l');
          split;
          [ intros [[-> ->] Hl]; apply IHl in Hl; congruence
          | intros [= -> -> ->]; split; [done|]; by apply IHl ] ]). }
  refine (λ x y,
    match value_eqb x y as b return value_eqb x y = b → Decision (x = y) with
    | true => λ Hb, left _
    | false => λ Hb, right _
    end eq_refl).
  - by apply Heqb.
  - abstract (intros Heq; apply Heqb in Heq; congruence).
Defined.

(** [typeof v] *)
Definition typeof (v : value) : string :=
  match v with
  | VUndefined => "undefined"
  | VNull => "object"
  | VBool _ => "boolean"
  | VNumber _ => "number"
  | VString _ => "string"
  | VArray _ => "object"
  | VObject _ => "object"
  end.

(** ToBoolean, as the operands of [&&] and [||] are tested. *)
Definition ToBoolean (v : value) : bool :=
  match v with
  | VUndefined => false
  | VNull => false
  | VBool b => b
  | VNumber n => number_ToBoolean n
  | VString s => negb (bool_decide (s = EmptyString))
  | VArray _ => true
  | VObject _ => true
  end.

(** [String(v)] *)
Fixpoint String_ (v : value) : string :=
  match v with
  | VUndefined => "undefined"
  | VNull => "null"
  | VBool true => "true"
  | VBool false => "false"
  | VNumber n => number_ToString n
  | VString s => s
  | VArray l =>
      (fix join (l : list value) : string :=
         match l with
         | [] => EmptyString
         | x :: r =>
             let e := match x with
                      | VUndefined | VNull => EmptyString
                      | _ => String_ x
                      end in
             match r with
             | [] => e
             | _ :: _ => e +:+ "," +:+ join r
             end
         end) l
  | VObject _ => "[object Object]"
  end.

Fixpoint assoc (fields : list (string * value)) (k : string) : value :=
  match fields with
  | [] => VUndefined
  | (k', v) :: r => if decide (k' = k) then v else assoc r k
  end.

(** The property read [v.k], for the keys the command reads ([nextVersion],
    [version], [nonce], [semver]): an own field of an object, and undefined
    on a primitive or an array. The command guards every read of a
    property of a value by the truth of that value, so that the read is
    never made on null or undefined. *)
Definition prop (v : value) (k : string) : value :=
  match v with
  | VObject fields => assoc fields k
  | _ => VUndefined
  end.

(** [a === b] for two values read from two different places of one parsed
    document: primitives are compared by type and value, and two objects
    or arrays found at different places are different objects. *)
Definition strict_eq (a b : value) : bool :=
  match a, b with
  | VUndefined, VUndefined => true
  | VNull, VNull => true
  | VBool x, VBool y => bool_decide (x = y)
  | VNumber x, VNumber y => number_strict_eq x y
  | VString x, VString y => bool_decide (x = y)
  | _, _ => false
  end.

End Values.

(** ** The data model *)

(** [workspace.anchoredLocator] *)
Record Locator := { locatorHash : string }.

(** An entry of [workspace.dependencies] *)
Record Descriptor := { descriptorHash : string }.

(** An entry of [project.storedPackages]; a package is a locator. *)
Record Package := { packageLocator : Locator }.

#[global] Instance Locator_eq_dec : EqDecision Locator.
Proof. solve_decision. Defined.
#[global] Instance Descriptor_eq_dec : EqDecision Descriptor.
Proof. solve_decision. Defined.

(** [type Decision] of the source; [token] gives the string it stands for. *)
Inductive BumpDecision :=
  | undecided_ | decline | major | minor | patch | prerelease.

#[global] Instance BumpDecision_eq_dec : EqDecision BumpDecision.
Proof. solve_decision. Defined.

Definition token (decision : BumpDecision) : string :=
  match decision with
  | undecided_ => "undecided"
  | decline => "decline"
  | major => "major"
  | minor => "minor"
  | patch => "patch"
  | prerelease => "prerelease"
  end.

(** A thrown exception, or the value returned. *)
Inductive result (A : Type) :=
  | Throw (message : string)
  | Return (a : A).
Arguments Throw {A} message.
Arguments Return {A} a.

Definition bind {A B} (m : result A) (k : A → result B) : result B :=
  match m with
  | Throw message => Throw message
  | Return a => k a
  end.

Notation "x ←! m ; k" := (bind m (λ x, k))
  (at level 100, m at next level, right associativity, only parsing).

(** ** Maps that iterate in insertion order

    A [Map] whose iteration order the command depends on, or whose keys are
    objects: the entries in insertion order, with unique keys. *)
Section JSMap.
Context {K V : Type} `{EqDecision K}.

Fixpoint Map_get (m : list (K * V)) (k : K) : option V :=
  match m with
  | [] => None
  | (k', v) :: r => if decide (k' = k) then Some v else Map_get r k
  end.

(** [m.set(k, v)]: the value of an existing key is replaced where it
    stands, a new key is added at the end. *)
Fixpoint Map_set (m : list (K * V)) (k : K) (v : V) : list (K * V) :=
  match m with
  | [] => [(k, v)]
  | (k', v') :: r =>
      if decide (k' = k) then (k', v) :: r else (k', v') :: Map_set r k v
  end.

Fixpoint Map_delete (m : list (K * V)) (k : K) : list (K * V) :=
  match m with
  | [] => []
  | (k', v') :: r =>
      if decide (k' = k) then r else (k', v') :: Map_delete r k
  end.

Definition Map_keys (m : list (K * V)) : list K := m.*1.

(** [new Map(entries)] *)
Definition Map_new (entries : list (K * V)) : list (K * V) :=
  foldl (λ m kv, Map_set m kv.1 kv.2) [] entries.

End JSMap.

Section Model.
Context `{JSNumber} `{Semver}.

(** [workspace.manifest]: the version and the private flag the manifest
    was loaded with, and the parsed document itself, an object. *)
Record Manifest := {
  version : option string;
  private : bool;
  raw : list (string * value);
}.

(** A workspace of the project. The project holds one object per
    workspace, so that two workspaces are the same object exactly when
    they are equal. [dependencies] is a [Map] from ident hashes to
    descriptors, in insertion order. *)
Record Workspace := {
  cwd : string;
  anchoredLocator : Locator;
  manifest : Manifest;
  dependencies : list (string * Descriptor);
}.

Record Project := {
  workspaces : list Workspace;
  storedResolutions : gmap string string;
  storedPackages : gmap string Package;
}.

#[global] Instance Manifest_eq_dec : EqDecision Manifest.
Proof. solve_decision. Defined.
#[global] Instance Workspace_eq_dec : EqDecision Workspace.
Proof. solve_decision. Defined.

Record Status := {
  decided : list Workspace;
  undecided : list Workspace;
  declined : list Workspace;
}.

(** ** Classification *)

Definition getNonce (manifest : Manifest) : option string :=
  let nextVersion := assoc (raw manifest) "nextVersion" in
  if ToBoolean nextVersion
     && (bool_decide (typeof (prop nextVersion "nonce") = "string")
         || bool_decide (typeof (prop nextVersion "nonce") = "number"))
  then Some (String_ (prop nextVersion "nonce"))
  else None.

Definition willBeReleased (manifest : Manifest) : bool :=
  let nextVersion := assoc (raw manifest) "nextVersion" in
  if ToBoolean nextVersion
     && bool_decide (typeof (prop nextVersion "semver") = "string")
     && negb (strict_eq nextVersion (assoc (raw manifest) "version"))
  then true
  else false.

(** [base workspace] is what [git show base:<path of the manifest>] gives
    for the workspace: [None] when git exits with a code other than 0,
    and the manifest read from its output otherwise. *)
Definition fetchPreviousNonce (workspace : Workspace)
    (base : Workspace → option Manifest) : option string :=
  match base workspace with
  | Some previous => getNonce previous
  | None => None
  end.

(** One turn of the loop of [fetchWorkspacesStatus]. *)
Definition fetchWorkspacesStatus_step (base : Workspace → option Manifest)
    (status : Status) (workspace : Workspace) : Status :=
  match version (manifest workspace) with
  | None => status
  | Some _ =>
      let currentNonce := getNonce (manifest workspace) in
      let previousNonce := fetchPreviousNonce workspace base in
      if decide (currentNonce = previousNonce) then
        {| decided := decided status;
           undecided := undecided status ++ [workspace];
           declined := declined status |}
      else if willBeReleased (manifest workspace) then
        {| decided := decided status ++ [workspace];
           undecided := undecided status;
           declined := declined status |}
      else
        {| decided := decided status;
           undecided := undecided status;
           declined := declined status ++ [workspace] |}
  end.

Definition fetchWorkspacesStatus (workspaces : list Workspace)
    (base : Workspace → option Manifest) : Status :=
  foldl (fetchWorkspacesStatus_step base)
    {| decided := []; undecided := []; declined := [] |} workspaces.

(** ** Propagation to the dependents *)

(** [new Map(entries)] for a map only read by key: a later entry replaces
    an earlier one of the same key. *)
Definition Map_of (entries : list (string * Workspace))
    : gmap string Workspace :=
  foldl (λ m kv, <[kv.1 := kv.2]> m) ∅ entries.

Definition byLocatorHash (l : list Workspace) : gmap string Workspace :=
  Map_of ((λ workspace, (locatorHash (anchoredLocator workspace), workspace))
            <$> l).

(** The inner loop of [fetchUndecidedDependentWorkspaces], over the
    descriptors of one workspace: the pairs it pushes, in order. *)
Fixpoint fetchUndecidedDependentWorkspaces_deps (project : Project)
    (bumpedWorkspaces : gmap string Workspace) (workspace : Workspace)
    (descriptors : list Descriptor) : result (list (Workspace * Workspace)) :=
  match descriptors with
  | [] => Return []
  | descriptor :: rest =>
      match storedResolutions project !! descriptorHash descriptor with
      | None =>
          Throw "Assertion failed: The resolution should have been registered"
      | Some resolution =>
          match storedPackages project !! resolution with
          | None =>
              Throw "Assertion failed: The package should have been registered"
          | Some pkg =>
              let pushed :=
                match bumpedWorkspaces !! resolution with
                | None => []
                | Some dependency => [(workspace, dependency)]
                end in
              more ←! fetchUndecidedDependentWorkspaces_deps project
                        bumpedWorkspaces workspace rest;
              Return (pushed ++ more)
          end
      end
  end.

(** The outer loop, over the workspaces of the project. *)
Fixpoint fetchUndecidedDependentWorkspaces_loop (project : Project)
    (bumpedWorkspaces declinedWorkspaces : gmap string Workspace)
    (include : list Workspace) (todo : list Workspace)
    : result (list (Workspace * Workspace)) :=
  match todo with
  | [] => Return []
  | workspace :: rest =>
      let next := fetchUndecidedDependentWorkspaces_loop project
                    bumpedWorkspaces declinedWorkspaces include rest in
      let hash := locatorHash (anchoredLocator workspace) in
      if negb (bool_decide (workspace ∈ include))
         && (bool_decide (is_Some (declinedWorkspaces !! hash))
             || bool_decide (is_Some (bumpedWorkspaces !! hash)))
      then next
      else if private (manifest workspace) then next
      else if bool_decide (version (manifest workspace) = None) then next
      else
        pushed ←! fetchUndecidedDependentWorkspaces_deps project
                    bumpedWorkspaces workspace (dependencies workspace).*2;
        more ←! next;
        Return (pushed ++ more)
  end.

(** [include] is the set the caller passes, as the list of its members;
    it is empty when the caller passes none. *)
Definition fetchUndecidedDependentWorkspaces
    (decided declined : list Workspace) (project : Project)
    (include : list Workspace) : result (list (Workspace * Workspace)) :=
  let bumpedWorkspaces := byLocatorHash decided in
  let declinedWorkspaces := byLocatorHash declined in
  fetchUndecidedDependentWorkspaces_loop project bumpedWorkspaces
    declinedWorkspaces include (workspaces project).

(** No two workspaces of the list have the same locator hash. *)
Definition unique_locators (l : list Workspace) : Prop :=
  ∀ a b,
    a ∈ l → b ∈ l →
    locatorHash (anchoredLocator a) = locatorHash (anchoredLocator b) →
    a = b.

(** The test that makes the loop pass over a workspace. *)
Definition skipped (bumped declinedW : gmap string Workspace)
    (include : list Workspace) (workspace : Workspace) : bool :=
  let hash := locatorHash (anchoredLocator workspace) in
  negb (bool_decide (workspace ∈ include))
  && (bool_decide (is_Some (declinedW !! hash))
      || bool_decide (is_Some (bumped !! hash)))
  || private (manifest workspace)
  || bool_decide (version (manifest workspace) = None).

(** ** The interactive session *)

(** [values.indexOf(value)]; [None] is an undefined [value], which is no
    element of [values]. *)
Fixpoint indexOf {T} `{EqDecision T} (values : list T) (value : option T)
    : Z :=
  match values with
  | [] => (-1)%Z
  | v :: rest =>
      if decide (Some v = value) then 0%Z
      else let index := indexOf rest value in
           if decide (index < 0)%Z then (-1)%Z else (1 + index)%Z
  end.

(** [a % b] on integers: the remainder has the sign of [a], and is NaN
    ([None]) when [b] is 0. *)
Definition js_rem (a b : Z) : option Z :=
  if decide (b = 0)%Z then None else Some (Z.rem a b).

(** [values[i]]: undefined ([None]) out of the array and at NaN. *)
Definition at_index {T} (values : list T) (i : option Z) : option T :=
  match i with
  | Some i => if decide (0 ≤ i)%Z then values !! Z.to_nat i else None
  | None => None
  end.

(** The keypress callback of [useListInput]: the argument [set] is called
    with, if it is called; the argument is undefined ([Some None]) when
    the array has nothing at the index. *)
Definition useListInput {T} `{EqDecision T} (value : option T)
    (values : list T) (active : bool) (minus plus : string)
    (key_name : string) : option (option T) :=
  if negb active then None
  else
    let index := indexOf values value in
    let length := Z.of_nat (length values) in
    if decide (key_name = minus) then
      Some (at_index values (js_rem (length + index - 1) length))
    else if decide (key_name = plus) then
      Some (at_index values (js_rem (index + 1) length))
    else None.

(** The strategies of the [Undecided] component. *)
Definition strategies (currentVersion : string) : list BumpDecision :=
  match semver_prerelease currentVersion with
  | None => [undecided_; decline; patch; minor; major; prerelease]
  | Some _ => [undecided_; decline; prerelease; major]
  end.

(** [setDecision] of [useDecisions]: the map the state is set to. *)
Definition setDecision (decisions : list (Workspace * BumpDecision))
    (workspace : Workspace) (decision : BumpDecision)
    : list (Workspace * BumpDecision) :=
  if decide (decision ≠ undecided_) then Map_set decisions workspace decision
  else Map_delete decisions workspace.

(** [new Set(array)], spread again: the first occurrence of each member,
    in order. *)
Definition Set_of {T} `{EqDecision T} (array : list T) : list T :=
  foldl (λ members x, if bool_decide (x ∈ members) then members
                      else members ++ [x]) [] array.

Record Listing := {
  undecidedWorkspaces : list Workspace;
  undecidedDependents : list Workspace;
  fullListing : list (string * Workspace);
}.

Definition applyDecisions_step (lists : list Workspace * list Workspace)
    (entry : Workspace * BumpDecision) : list Workspace * list Workspace :=
  let '(decidedWithDecisions, declinedWithDecisions) := lists in
  let '(workspace, decision) := entry in
  if decide (decision = undecided_) then lists
  else if decide (decision ≠ decline) then
    (decidedWithDecisions ++ [workspace], declinedWithDecisions)
  else (decidedWithDecisions, declinedWithDecisions ++ [workspace]).

Definition applyDecisions (project : Project) (status : Status)
    (decisions : list (Workspace * BumpDecision)) : result Listing :=
  let '(decidedWithDecisions, declinedWithDecisions) :=
    foldl applyDecisions_step (decided status, declined status) decisions in
  undecidedDependents ←!
    fetchUndecidedDependentWorkspaces decidedWithDecisions
      declinedWithDecisions project (Map_keys decisions);
  let undecidedDependentsNoDuplicates := Set_of undecidedDependents.*1 in
  Return {|
    undecidedWorkspaces := undecided status;
    undecidedDependents := undecidedDependentsNoDuplicates;
    fullListing :=
      Map_new
        (((λ workspace,
             ("undecidedWorkspace:"
                +:+ locatorHash (anchoredLocator workspace), workspace))
            <$> undecided status)
         ++ ((λ workspace,
                ("undecidedDependent:"
                   +:+ locatorHash (anchoredLocator workspace), workspace))
               <$> undecidedDependentsNoDuplicates));
  |}.

(** The state of [App]: the decisions and the key of the active row. *)
Record Session := {
  decisions : list (Workspace * BumpDecision);
  activeKey : option string;
}.

(** A row: the [Undecided] component of a workspace. Rendering it throws
    when the workspace has no version. *)
Definition Undecided_render (workspace : Workspace) : result string :=
  match version (manifest workspace) with
  | None => Throw "Assertion failed: The version should have been set"
  | Some currentVersion => Return currentVersion
  end.

(** What a row does on a keypress: the map it sets the decisions to, if
    it sets them. [strategies] has an entry at every index the callback
    computes, so [set] is never called with undefined. *)
Definition Undecided_keypress (decisions : list (Workspace * BumpDecision))
    (workspace : Workspace) (active : bool) (key_name : string)
    : option (list (Workspace * BumpDecision)) :=
  match version (manifest workspace) with
  | None => None
  | Some currentVersion =>
      let decision := default undecided_ (Map_get decisions workspace) in
      match useListInput (Some decision) (strategies currentVersion) active
              "left" "right" key_name with
      | Some (Some decision') =>
          Some (setDecision decisions workspace decision')
      | _ => None
      end
  end.

(** One render of [App]: the listing, once every row has rendered. *)
Definition App_render (project : Project) (status : Status)
    (session : Session) : result Listing :=
  listing ←! applyDecisions project status (decisions session);
  _ ←! foldr (λ workspace rest, _ ←! Undecided_render workspace; rest)
         (Return EmptyString)
         (undecidedWorkspaces listing ++ undecidedDependents listing);
  Return listing.

(** A keypress other than the one that submits: every row whose workspace
    is the active one cycles its decision from the decisions of the last
    render, and [App] moves the active key. *)
Definition App_keypress (session : Session) (listing : Listing)
    (key_name : string) : Session :=
  let keys := Map_keys (fullListing listing) in
  let activeWorkspace :=
    match activeKey session with
    | Some key => Map_get (fullListing listing) key
    | None => None
    end in
  {| decisions :=
       foldl (λ current workspace,
                match Undecided_keypress (decisions session) workspace
                        (bool_decide (Some workspace = activeWorkspace))
                        key_name with
                | Some copy => copy
                | None => current
                end)
         (decisions session)
         (undecidedWorkspaces listing ++ undecidedDependents listing);
     activeKey :=
       match useListInput (activeKey session) keys true "up" "down"
               key_name with
       | Some key => key
       | None => activeKey session
       end |}.

(** [renderForm]: the application runs on the keypresses it receives, in
    order, and renders again after each of them, until [return] submits
    the decisions of the last render; when it exits without that keypress,
    nothing is returned. *)
Fixpoint renderForm_loop (project : Project) (status : Status)
    (session : Session) (keys : list string)
    : result (option (list (Workspace * BumpDecision))) :=
  listing ←! App_render project status session;
  match keys with
  | [] => Return None
  | key_name :: rest =>
      if decide (key_name = "return") then Return (Some (decisions session))
      else renderForm_loop project status
             (App_keypress session listing key_name) rest
  end.

Definition renderForm (project : Project) (status : Status)
    (keys : list string) : result (option (list (Workspace * BumpDecision))) :=
  listing ←! applyDecisions project status [];
  renderForm_loop project status
    {| decisions := []; activeKey := head (Map_keys (fullListing listing)) |}
    keys.

(** ** The two modes of the command *)

(** The text of a line of the report, before formatting. *)
Inductive Message :=
  | StartedAfter (hash message : string)
  | ChangedFiles
  | File (file : string)
  | NoStrategy (workspace : Workspace)
  | NoStrategyButDepends (workspace dependency : Workspace)
  | Detected
  | ToCorrect.

(** What the command does to the world, in order. *)
Inductive Effect :=
  | CliRun (args : list string)
  | ReportInfo (message : Message)
  | ReportError (message : Message)
  | ReportSeparator.

Definition isReportError (effect : Effect) : bool :=
  match effect with
  | ReportError _ => true
  | _ => false
  end.

(** Modelled from the spec: [exitCode] of the report (StreamReport, of the
    core package, is not among the sources): the exit code of the report
    mode is non-zero when a diagnostic was reported as an error, and 0
    otherwise. An exception of the callback is surfaced as a failure of
    the command, not as a diagnostic. *)
Definition exitCode (report : list Effect) : Z :=
  if existsb isReportError report then 1%Z else 0%Z.

(** The loop of [executeInteractive] over the entries of the decisions. *)
Definition executeInteractive_apply
    (decisions : list (Workspace * BumpDecision)) : list Effect :=
  foldl (λ effects entry,
           let '(workspace, decision) := entry in
           if decide (decision ≠ undecided_) then
             effects ++ [CliRun [cwd workspace; "version"; token decision;
                                 "--deferred"]]
           else effects)
    [] decisions.

(** [executeInteractive], from the changed files on: [owner] is
    [project.getWorkspaceByFilePath], [keys] the names of the keys pressed
    while the form is shown. The value returned ([None] is undefined) and
    the effects. *)
Definition executeInteractive (project : Project)
    (owner : string → Workspace) (files : list string)
    (base : Workspace → option Manifest) (keys : list string)
    : result (option Z * list Effect) :=
  let workspaces := Set_of (owner <$> files) in
  if decide (length workspaces = 0) then Return (None, [])
  else
    let status := fetchWorkspacesStatus workspaces base in
    nothing ←!
      (if decide (length (undecided status) = 0) then
         dependents ←! fetchUndecidedDependentWorkspaces (decided status)
                         (declined status) project [];
         Return (bool_decide (length dependents = 0))
       else Return false);
    if nothing : bool then Return (None, [])
    else
      decisions ←! renderForm project status keys;
      match decisions with
      | None => Return (Some 1%Z, [])
      | Some decisions => Return (None, executeInteractive_apply decisions)
      end.

(** One turn of the loop of [executeStandard] over the dependents found:
    the report and [hasDepsErrors], before and after. *)
Definition executeStandard_dependent (files : list string)
    (hasDiffErrors : bool) (state : list Effect * bool)
    (pair : Workspace * Workspace) : list Effect * bool :=
  let '(report, hasDepsErrors) := state in
  let '(workspace, dependency) := pair in
  ((if negb hasDepsErrors && (bool_decide (0 < length files) || hasDiffErrors)
    then report ++ [ReportSeparator] else report)
   ++ [ReportError (NoStrategyButDepends workspace dependency)],
   true).

(** [executeStandard], from the changed files on: the exit code and the
    effects. *)
Definition executeStandard (project : Project)
    (owner : string → Workspace) (files : list string)
    (baseHash baseMessage : string) (base : Workspace → option Manifest)
    : result (Z * list Effect) :=
  let workspaces := Set_of (owner <$> files) in
  let report := [ReportInfo (StartedAfter (String.substring 0 7 baseHash) baseMessage)] in
  let report :=
    if decide (0 < length files) then
      report ++ [ReportInfo ChangedFiles] ++ (ReportInfo ∘ File <$> files)
    else report in
  let status := fetchWorkspacesStatus workspaces base in
  let hasDiffErrors := false in
  let '(report, hasDiffErrors) :=
    if decide (0 < length (undecided status)) then
      ((if negb hasDiffErrors && bool_decide (0 < length files)
        then report ++ [ReportSeparator] else report)
       ++ (ReportError ∘ NoStrategy <$> undecided status), true)
    else (report, hasDiffErrors) in
  undecidedDependents ←!
    fetchUndecidedDependentWorkspaces (decided status) (declined status)
      project [];
  let '(report, hasDepsErrors) :=
    foldl (executeStandard_dependent files hasDiffErrors) (report, false)
      undecidedDependents in
  let report :=
    if hasDiffErrors || hasDepsErrors then
      report ++ [ReportSeparator; ReportInfo Detected; ReportInfo ToCorrect]
    else report in
  Return (exitCode report, report).

(** The decisions hold one entry for a workspace at most, and none that
    is undecided. *)
Definition sparse (decisions : list (Workspace * BumpDecision)) : Prop :=
  NoDup decisions.*1 ∧ ∀ workspace, (workspace, undecided_) ∉ decisions.

(** The apply action of an entry of the decisions. *)
Definition applyAction (entry : Workspace * BumpDecision) : Effect :=
  CliRun [cwd entry.1; "version"; token entry.2; "--deferred"].

(** The form is shown: some file has changed, and a workspace is undecided
    or a dependent is found. *)
Definition formShown (project : Project) (owner : string → Workspace)
    (files : list string) (base : Workspace → option Manifest) : Prop :=
  let status := fetchWorkspacesStatus (Set_of (owner <$> files)) base in
  Set_of (owner <$> files) ≠ []
  ∧ (undecided status ≠ []
     ∨ ∃ pair pairs,
         fetchUndecidedDependentWorkspaces (decided status) (declined status)
           project [] = Return (pair :: pairs)).

(** The working directories of the workspaces the apply actions were run
    on, in the order of the runs. *)
Definition appliedTo (effects : list Effect) : list string :=
  omap (λ effect, match effect with
                  | CliRun (workspaceCwd :: _) => Some workspaceCwd
                  | _ => None
                  end) effects.

(** An effect of the report mode: a line of the report. *)
Definition reportOnly (effect : Effect) : Prop :=
  ∀ args, effect ≠ CliRun args.

(** The apply actions were run on workspaces in the order of the rows. *)
Definition inDeclarationOrder (rows : list Workspace)
    (effects : list Effect) : Prop :=
  sublist (appliedTo effects) (cwd <$> rows).

End Model.

(** ** The queries to git and to the file system *)

(** What the command finds around it: git run with [strict: true], the
    file system, the operations on paths, and the sort of the arrays of
    the language. *)
Class Host := {
  (** [execUtils.execvp(`git`, args, {cwd, strict: true})]: the output of
      the run, or the exception of a run that fails. *)
  git_strict : list string → string → result string;
  (** [xfs.existsPromise(path)] *)
  existsPromise : string → bool;
  (** [ppath.join(a, b)], [ppath.dirname(path)], [ppath.resolve(a, b)] and
      [npath.toPortablePath(path)] *)
  ppath_join : string → string → string;
  ppath_dirname : string → string;
  ppath_resolve : string → string → string;
  npath_toPortablePath : string → string;
  (** [array.sort()], on an array of strings *)
  Array_sort : list string → list string;
}.

Definition CR : ascii := "013"%char.
Definition LF : ascii := "010"%char.

(** [s.split(/\r\n|\r|\n/)]: the pieces of [s] between the line ends, a
    carriage return followed by a line feed being one line end. *)
Fixpoint split_newlines (s : string) : list string :=
  match s with
  | EmptyString => [EmptyString]
  | String c rest =>
      if decide (c = CR) then
        match rest with
        | String c' rest' =>
            if decide (c' = LF) then EmptyString :: split_newlines rest'
            else EmptyString :: split_newlines rest
        | EmptyString => EmptyString :: split_newlines rest
        end
      else if decide (c = LF) then EmptyString :: split_newlines rest
      else
        match split_newlines rest with
        | piece :: pieces => String c piece :: pieces
        | [] => [String c EmptyString]
        end
  end.

Section Queries.
Context `{JSNumber} `{Host}.

(** The files of one output of git: its lines that are not empty, each
    resolved from the root. *)
Definition fetchChangedFiles_files (root stdout : string) : list string :=
  (λ file, ppath_resolve root (npath_toPortablePath file))
    <$> filter (λ file, 0 < String.length file) (split_newlines stdout).

Definition fetchChangedFiles (root base : string) : result (list string) :=
  localStdout ←! git_strict ["diff"; "--name-only"; base] root;
  let trackedFiles := fetchChangedFiles_files root localStdout in
  untrackedStdout ←!
    git_strict ["ls-files"; "--others"; "--exclude-standard"] root;
  let untrackedFiles := fetchChangedFiles_files root untrackedStdout in
  Return (Set_of (Array_sort (trackedFiles ++ untrackedFiles))).

(** The loop of [fetchRoot], from the directory it is to look at next:
    the match it ends with, or [None] when the turns allowed are used up
    before it ends. *)
Fixpoint fetchRoot_loop (turns : nat) (nextCwd : string)
    : option (option string) :=
  match turns with
  | 0 => None
  | S turns =>
      let cwd := nextCwd in
      let found :=
        if existsPromise (ppath_join cwd ".git") then Some cwd else None in
      let nextCwd := ppath_dirname cwd in
      if bool_decide (found = None) && bool_decide (nextCwd ≠ cwd)
      then fetchRoot_loop turns nextCwd
      else Some found
  end.

Definition fetchRoot (turns : nat) (initialCwd : string)
    : option (result string) :=
  match fetchRoot_loop turns initialCwd with
  | None => None
  | Some None =>
      Some (Throw "This command can only be run from within a Git repository")
  | Some (Some found) => Some (Return found)
  end.

(** The messages of the lines reported as errors, in order. *)
Definition reportedErrors (report : list Effect) : list Message :=
  omap (λ effect, match effect with
                  | ReportError message => Some message
                  | _ => None
                  end) report.

(** The loop of the propagation comes to the dependencies of the
    workspace: it is in the include set or shares its locator hash with
    no decided and no declined workspace, it is not private and it has a
    version. *)
Definition visited (decided declined include : list Workspace)
    (workspace : Workspace) : Prop :=
  (workspace ∈ include
   ∨ ∀ other, other ∈ decided ++ declined →
              locatorHash (anchoredLocator other)
              ≠ locatorHash (anchoredLocator workspace))
  ∧ private (manifest workspace) = false
  ∧ version (manifest workspace) ≠ None.

(** Every dependency of the workspace has a stored resolution, which is a
    stored package. *)
Definition registered (project : Project) (workspace : Workspace) : Prop :=
  ∀ ident descriptor,
    (ident, descriptor) ∈ dependencies workspace →
    ∃ resolution,
      storedResolutions project !! descriptorHash descriptor = Some resolution
      ∧ is_Some (storedPackages project !! resolution).

(** The keys the form listens to. *)
Definition listenedKeys : list string :=
  ["up"; "down"; "left"; "right"; "return"].

End Queries.

(** ** Instances and a sample project for the examples *)

(** Numbers that are integers, printed in decimal. *)
Definition integer_JSNumber : JSNumber := {|
  number := Z;
  number_eq_dec := Z.eq_dec;
  number_ToBoolean n := negb (n =? 0)%Z;
  number_strict_eq := Z.eqb;
  number_ToString := pretty;
|}.

(** A reading of [semver.prerelease] that only looks for the hyphen that
    starts the prerelease tag. *)
Fixpoint after_hyphen (s : string) : option string :=
  match s with
  | EmptyString => None
  | String c rest =>
      if decide (c = "-"%char) then Some rest else after_hyphen rest
  end.

Definition hyphen_Semver : Semver := {|
  semver_prerelease v := (λ tag, [tag]) <$> after_hyphen v;
|}.

Section Samples.
#[local] Existing Instance integer_JSNumber.
#[local] Existing Instance hyphen_Semver.

Definition sample_workspace (name currentVersion : string)
    (nextVersion : list (string * value)) (deps : list string) : Workspace :=
  {| cwd := "/repo/packages/" +:+ name;
     anchoredLocator := {| locatorHash := "locator:" +:+ name |};
     manifest :=
       {| version := Some currentVersion;
          private := false;
          raw := [("name", VString name); ("version", VString currentVersion)]
                 ++ nextVersion |};
     dependencies :=
       (λ dep, ("ident:" +:+ dep, {| descriptorHash := "descriptor:" +:+ dep |}))
         <$> deps |}.

(** Three workspaces in a chain: C depends on B, and B on A. *)
Definition sample_A : Workspace := sample_workspace "a" "1.0.0" [] [].
Definition sample_B : Workspace := sample_workspace "b" "2.0.0" [] ["a"].
Definition sample_C : Workspace := sample_workspace "c" "3.0.0" [] ["b"].

Definition sample_project : Project :=
  {| workspaces := [sample_A; sample_B; sample_C];
     storedResolutions :=
       {[ "descriptor:a" := "locator:a"; "descriptor:b" := "locator:b" ]};
     storedPackages :=
       {[ "locator:a" := {| packageLocator := {| locatorHash := "locator:a" |} |};
          "locator:b" := {| packageLocator := {| locatorHash := "locator:b" |} |};
          "locator:c" := {| packageLocator := {| locatorHash := "locator:c" |} |} ]} |}.

(** A workspace whose decision record carries its own version as the
    target, as a declined bump leaves it. *)
Definition sample_declined : Workspace :=
  sample_workspace "a" "1.0.0"
    [("nextVersion",
      VObject [("semver", VString "1.0.0"); ("nonce", VString "4821")])] [].

(** A workspace whose nonce is a number, and the manifest of the base with
    the same nonce as a string. *)
Definition sample_numeric : Workspace :=
  sample_workspace "a" "1.0.0"
    [("nextVersion", VObject [("nonce", VNumber 42%Z)])] [].

Definition sample_textual : Manifest :=
  {| version := Some "1.0.0";
     private := false;
     raw := [("name", VString "a"); ("version", VString "1.0.0");
             ("nextVersion", VObject [("nonce", VString "42")])] |}.

(** A workspace whose version is a prerelease. *)
Definition sample_alpha : Workspace :=
  sample_workspace "a" "1.0.0-alpha.1" [] [].

(** The owner of a changed file, in the sample project. *)
Definition sample_owner (file : string) : Workspace :=
  if decide (file = "/repo/packages/a/index.js") then sample_A
  else if decide (file = "/repo/packages/b/index.js") then sample_B
  else sample_C.

(** Two changed files, one in A and one in B, and no manifest at the
    base. *)
Definition sample_files : list string :=
  ["/repo/packages/a/index.js"; "/repo/packages/b/index.js"].

Definition sample_base (workspace : Workspace) : option Manifest := None.

Definition sample_status : Status :=
  {| decided := []; undecided := [sample_A; sample_B]; declined := [] |}.

(** B is declined first, and A is then set to patch. *)
Definition sample_keys_B_first : list string :=
  ["down"; "right"; "up"; "right"; "right"; "return"].

(** A is set to patch first, and B is then declined. *)
Definition sample_keys_A_first : list string :=
  ["right"; "right"; "down"; "right"; "return"].

(** The same keys without the last: the form is left unconfirmed. *)
Definition sample_keys_unconfirmed : list string :=
  ["right"; "right"; "down"; "right"].

End Samples.

Section HostSamples.

Definition sample_line_end : string := String LF EmptyString.
Definition sample_crlf : string := String CR (String LF EmptyString).

(** A run of git on the sample repository: the diff lists a file of B and
    a file of A, and the untracked files are the same file of A and a new
    one, with the other line end. *)
Definition sample_git (args : list string) (cwd : string) : result string :=
  if decide (args = ["diff"; "--name-only"; "0a1b2c3"]) then
    Return ("packages/b/index.js" +:+ sample_line_end
            +:+ "packages/a/index.js" +:+ sample_line_end)
  else if decide (args = ["ls-files"; "--others"; "--exclude-standard"]) then
    Return ("packages/a/index.js" +:+ sample_crlf
            +:+ "packages/a/new.js" +:+ sample_crlf)
  else Throw "git failed".

Definition sample_dirname (path : string) : string :=
  if decide (path = "/repo/packages/a") then "/repo/packages"
  else if decide (path = "/repo/packages") then "/repo"
  else "/".

(** The order of the sort, on the bytes of the strings. *)
Definition sample_before (a b : string) : Prop := String.leb a b = true.

#[local] Instance sample_before_dec (a b : string) :
  Decision (sample_before a b).
Proof. unfold sample_before. apply _. Defined.

Definition sample_Host : Host := {|
  git_strict := sample_git;
  existsPromise path := bool_decide (path = "/repo/.git");
  ppath_join a b := a +:+ "/" +:+ b;
  ppath_dirname := sample_dirname;
  ppath_resolve root file := root +:+ "/" +:+ file;
  npath_toPortablePath file := file;
  Array_sort := merge_sort sample_before;
|}.

#[local] Existing Instance integer_JSNumber.


Definition sample_listing_after : Listing :=
  {| undecidedWorkspaces := [sample_A; sample_B];
     undecidedDependents := [sample_B];
     fullListing := [("undecidedWorkspace:locator:a", sample_A);
                     ("undecidedWorkspace:locator:b", sample_B);
                     ("undecidedDependent:locator:b", sample_B)] |}.

End HostSamples.

(** * Properties *)

Section Classification.
Context `{JSNumber}.

Lemma typeof_string (v : value) :
  typeof v = "string" ↔ ∃ s, v = VString s.
Proof.
  destruct v; simpl; split; try discriminate; try (intros [? [=]]); eauto.
Qed.

Lemma typeof_number (v : value) :
  typeof v = "number" ↔ ∃ n, v = VNumber n.
Proof.
  destruct v; simpl; split; try discriminate; try (intros [? [=]]); eauto.
Qed.

(** A property read that gives something is a read of an object, which is
    true as a condition. *)
Lemma prop_defined_ToBoolean (v : value) (k : string) :
  prop v k ≠ VUndefined → ToBoolean v = true.
Proof. destruct v; simpl; congruence. Qed.

(** The nonce read, by the shape of [nextVersion.nonce]. *)
Lemma getNonce_shape (m : Manifest) :
  getNonce m =
    match prop (assoc (raw m) "nextVersion") "nonce" with
    | VString s => Some s
    | VNumber n => Some (number_ToString n)
    | _ => None
    end.
Proof.
  unfold getNonce.
  pose proof (prop_defined_ToBoolean (assoc (raw m) "nextVersion") "nonce")
    as Htrue.
  destruct (prop (assoc (raw m) "nextVersion") "nonce") eqn:Hnonce; simpl;
    rewrite ?andb_false_r; try reflexivity;
    rewrite Htrue by discriminate; reflexivity.
Qed.

(** The comparison of [willBeReleased] is between the decision record, an
    object, and the version: it never fails, and the test is that of the
    presence of a target version. *)
Lemma willBeReleased_target_present (m : Manifest) :
  willBeReleased m = true ↔
  ∃ s, prop (assoc (raw m) "nextVersion") "semver" = VString s.
Proof.
  unfold willBeReleased. split.
  - destruct (ToBoolean _ && bool_decide _ && negb _) eqn:Hcond;
      [|discriminate].
    intros _. apply andb_true_iff in Hcond as [Hcond _].
    apply andb_true_iff in Hcond as [_ Hcond].
    apply bool_decide_eq_true in Hcond. by apply typeof_string.
  - intros [s Hs].
    destruct (assoc (raw m) "nextVersion") eqn:Hnext; simpl in Hs;
      try discriminate.
    simpl. rewrite Hs. reflexivity.
Qed.

Lemma fetchWorkspacesStatus_single (workspace : Workspace)
    (base : Workspace → option Manifest) :
  fetchWorkspacesStatus [workspace] base =
    fetchWorkspacesStatus_step base
      {| decided := []; undecided := []; declined := [] |} workspace.
Proof. reflexivity. Qed.

(** A workspace with a version goes to one bucket, and one only: to the
    undecided ones when the nonce has not changed, and otherwise to the
    decided or to the declined ones by [willBeReleased]. *)
Lemma classification_trichotomy (workspace : Workspace)
    (base : Workspace → option Manifest) :
  version (manifest workspace) ≠ None →
  let status := fetchWorkspacesStatus [workspace] base in
  let same := getNonce (manifest workspace)
              = fetchPreviousNonce workspace base in
  (same ∧ status
          = {| decided := []; undecided := [workspace]; declined := [] |})
  ∨ (¬ same ∧ willBeReleased (manifest workspace) = true
     ∧ status
       = {| decided := [workspace]; undecided := []; declined := [] |})
  ∨ (¬ same ∧ willBeReleased (manifest workspace) = false
     ∧ status
       = {| decided := []; undecided := []; declined := [workspace] |}).
Proof.
  intros Hversion. simpl. rewrite fetchWorkspacesStatus_single.
  unfold fetchWorkspacesStatus_step.
  destruct (version (manifest workspace)); [|done].
  destruct (decide _) as [Hsame|Hsame]; [by left|].
  right. destruct (willBeReleased (manifest workspace)); [left|right]; done.
Qed.

(** Workspaces without a version are skipped. *)
Lemma fetchWorkspacesStatus_step_versionless (workspace : Workspace)
    (base : Workspace → option Manifest) (status : Status) :
  version (manifest workspace) = None →
  fetchWorkspacesStatus_step base status workspace = status.
Proof. unfold fetchWorkspacesStatus_step. by intros ->. Qed.

(** C10. The nonce read from a manifest is the text of
    [nextVersion.nonce] when that is a string or a number, and null for
    any other shape; so a workspace whose nonce is a number in one of the
    two manifests and the text of that number in the other is classified
    as undecided. *)
Theorem getNonce_normalizes_to_string :
  (∀ m : Manifest,
     getNonce m =
       match prop (assoc (raw m) "nextVersion") "nonce" with
       | VString s => Some s
       | VNumber n => Some (number_ToString n)
       | _ => None
       end)
  ∧ (∀ (workspace : Workspace) (base : Workspace → option Manifest)
       (previous : Manifest) (n : number),
       version (manifest workspace) ≠ None →
       base workspace = Some previous →
       let current := prop (assoc (raw (manifest workspace)) "nextVersion")
                        "nonce" in
       let former := prop (assoc (raw previous) "nextVersion") "nonce" in
       (current = VNumber n ∧ former = VString (number_ToString n))
       ∨ (current = VString (number_ToString n) ∧ former = VNumber n) →
       getNonce (manifest workspace) = fetchPreviousNonce workspace base
       ∧ fetchWorkspacesStatus [workspace] base
         = {| decided := []; undecided := [workspace]; declined := [] |}).
Proof.
  split; [apply getNonce_shape|].
  intros workspace base previous n Hversion Hbase current former Hshapes.
  assert (getNonce (manifest workspace) = fetchPreviousNonce workspace base)
    as Hsame.
  { unfold fetchPreviousNonce. rewrite Hbase, !getNonce_shape.
    fold current former.
    destruct Hshapes as [[-> ->]|[-> ->]]; reflexivity. }
  split; [done|].
  destruct (classification_trichotomy workspace base Hversion)
    as [[_ ?]|[[? _]|[? _]]]; done.
Qed.

End Classification.

Section Propagation.
Context `{JSNumber}.

Implicit Types (project : Project) (workspace dependency : Workspace).
Implicit Types (bumped declinedW : gmap string Workspace).

Lemma Map_of_lookup_acc (entries : list (string * Workspace))
    (m : gmap string Workspace) (h : string) (w : Workspace) :
  foldl (λ m kv, <[kv.1 := kv.2]> m) m entries !! h = Some w →
  (h, w) ∈ entries ∨ m !! h = Some w.
Proof.
  revert m. induction entries as [|[k v] entries IH]; intros m; simpl.
  - by right.
  - intros Hlookup. apply IH in Hlookup as [Hin|Hlookup].
    + left. by right.
    + apply lookup_insert_Some in Hlookup as [[<- <-]|[_ Hm]].
      * left. by left.
      * by right.
Qed.

Lemma Map_of_is_Some_acc (entries : list (string * Workspace))
    (m : gmap string Workspace) (h : string) :
  h ∈ entries.*1 ∨ is_Some (m !! h) →
  is_Some (foldl (λ m kv, <[kv.1 := kv.2]> m) m entries !! h).
Proof.
  revert m. induction entries as [|[k v] entries IH]; intros m; simpl.
  - intros [Hin|Hm]; [by apply elem_of_nil in Hin | done].
  - intros [Hin|Hm]; apply IH.
    + apply elem_of_cons in Hin as [->|Hin]; [right|by left].
      rewrite lookup_insert_eq. by eexists.
    + right. rewrite lookup_insert_is_Some. destruct (decide (k = h)); auto.
Qed.

Lemma byLocatorHash_Some (l : list Workspace) (h : string) (w : Workspace) :
  byLocatorHash l !! h = Some w → w ∈ l ∧ locatorHash (anchoredLocator w) = h.
Proof.
  unfold byLocatorHash, Map_of. intros Hlookup.
  apply Map_of_lookup_acc in Hlookup as [Hin|Hempty].
  - apply list_elem_of_fmap in Hin as (w' & [= -> ->] & Hin). done.
  - by rewrite lookup_empty in Hempty.
Qed.

Lemma byLocatorHash_is_Some (l : list Workspace) (w : Workspace) :
  w ∈ l → is_Some (byLocatorHash l !! locatorHash (anchoredLocator w)).
Proof.
  intros Hin. unfold byLocatorHash, Map_of. apply Map_of_is_Some_acc. left.
  rewrite <- list_fmap_compose. apply list_elem_of_fmap. by exists w.
Qed.

Lemma byLocatorHash_None (l : list Workspace) (h : string) :
  byLocatorHash l !! h = None ↔ ∀ w, w ∈ l → locatorHash (anchoredLocator w) ≠ h.
Proof.
  split.
  - intros Hnone w Hin <-.
    apply byLocatorHash_is_Some in Hin as [? Hsome]. congruence.
  - intros Hfresh. destruct (byLocatorHash l !! h) as [w|] eqn:Hlookup; [|done].
    apply byLocatorHash_Some in Hlookup as [Hin Hh]. by apply Hfresh in Hin.
Qed.

Lemma byLocatorHash_unique (l : list Workspace) (w : Workspace) :
  unique_locators l → w ∈ l → byLocatorHash l !! locatorHash (anchoredLocator w) = Some w.
Proof.
  intros Hunique Hin.
  destruct (byLocatorHash_is_Some l w Hin) as [w' Hlookup].
  rewrite Hlookup. f_equal.
  apply byLocatorHash_Some in Hlookup as [Hin' Hh]. by apply Hunique.
Qed.

Lemma byLocatorHash_mono (l l' : list Workspace) :
  l ⊆ l' → unique_locators l' → byLocatorHash l ⊆ byLocatorHash l'.
Proof.
  intros Hincl Hunique. apply map_subseteq_spec. intros h w Hlookup.
  apply byLocatorHash_Some in Hlookup as [Hin <-].
  apply byLocatorHash_unique; auto.
Qed.

(** *** The inner loop *)

Lemma deps_dependent project bumped workspace descriptors pairs :
  fetchUndecidedDependentWorkspaces_deps project bumped workspace descriptors
  = Return pairs →
  ∀ p, p ∈ pairs → p.1 = workspace.
Proof.
  revert pairs. induction descriptors as [|descriptor rest IH]; simpl;
    intros pairs.
  - intros [= <-] p Hp. by apply elem_of_nil in Hp.
  - destruct (storedResolutions project !! _) as [resolution|]; [|done].
    destruct (storedPackages project !! _) as [pkg|]; [|done].
    destruct (fetchUndecidedDependentWorkspaces_deps _ _ _ rest)
      as [|more]; [done|]. simpl.
    intros [= <-] p Hp. apply elem_of_app in Hp as [Hp|Hp].
    + destruct (bumped !! resolution); [|by apply elem_of_nil in Hp].
      apply list_elem_of_singleton in Hp as ->. done.
    + by apply (IH more).
Qed.

Lemma deps_edge project bumped workspace descriptors pairs :
  fetchUndecidedDependentWorkspaces_deps project bumped workspace descriptors
  = Return pairs →
  ∀ p, p ∈ pairs →
    ∃ descriptor resolution,
      descriptor ∈ descriptors
      ∧ storedResolutions project !! descriptorHash descriptor
        = Some resolution
      ∧ bumped !! resolution = Some p.2.
Proof.
  revert pairs. induction descriptors as [|descriptor rest IH]; simpl;
    intros pairs.
  - intros [= <-] p Hp. by apply elem_of_nil in Hp.
  - destruct (storedResolutions project !! _) as [resolution|] eqn:Hres;
      [|done].
    destruct (storedPackages project !! _) as [pkg|]; [|done].
    destruct (fetchUndecidedDependentWorkspaces_deps _ _ _ rest)
      as [|more]; [done|]. simpl.
    intros [= <-] p Hp. apply elem_of_app in Hp as [Hp|Hp].
    + destruct (bumped !! resolution) as [d|] eqn:Hbumped;
        [|by apply elem_of_nil in Hp].
      apply list_elem_of_singleton in Hp as ->.
      exists descriptor, resolution. split; [by left|done].
    + destruct (IH more eq_refl p Hp) as (d & r & Hd & Hr & Hb).
      exists d, r. split; [by right|done].
Qed.

Lemma deps_mono project bumped bumped' workspace descriptors pairs :
  bumped ⊆ bumped' →
  fetchUndecidedDependentWorkspaces_deps project bumped workspace descriptors
  = Return pairs →
  ∃ pairs',
    fetchUndecidedDependentWorkspaces_deps project bumped' workspace
      descriptors = Return pairs'
    ∧ pairs ⊆ pairs'.
Proof.
  intros Hsub. revert pairs.
  induction descriptors as [|descriptor rest IH]; simpl; intros pairs.
  - intros [= <-]. by exists [].
  - destruct (storedResolutions project !! _) as [resolution|]; [|done].
    destruct (storedPackages project !! _) as [pkg|]; [|done].
    destruct (fetchUndecidedDependentWorkspaces_deps _ bumped _ rest)
      as [|more]; [done|]. simpl.
    intros [= <-]. destruct (IH more eq_refl) as (more' & -> & Hmore).
    simpl. eexists. split; [done|].
    intros p Hp. apply elem_of_app in Hp as [Hp|Hp]; apply elem_of_app.
    + left. destruct (bumped !! resolution) as [d|] eqn:Hbumped;
        [|by apply elem_of_nil in Hp].
      by rewrite (lookup_weaken _ _ _ _ Hbumped Hsub).
    + right. by apply Hmore.
Qed.

(** *** The outer loop *)

Lemma loop_unfold project bumped declinedW include workspace rest :
  fetchUndecidedDependentWorkspaces_loop project bumped declinedW include
    (workspace :: rest)
  = if skipped bumped declinedW include workspace then
      fetchUndecidedDependentWorkspaces_loop project bumped declinedW
        include rest
    else
      pushed ←! fetchUndecidedDependentWorkspaces_deps project bumped
                  workspace (dependencies workspace).*2;
      more ←! fetchUndecidedDependentWorkspaces_loop project bumped
                declinedW include rest;
      Return (pushed ++ more).
Proof.
  unfold skipped. simpl.
  destruct (negb _ && _); [done|].
  destruct (private _); [done|].
  destruct (bool_decide (version _ = None)); done.
Qed.

(** Every pair comes from a workspace of the list that the loop did not
    pass over, and from the inner loop on it. *)
Lemma loop_origin project bumped declinedW include todo pairs :
  fetchUndecidedDependentWorkspaces_loop project bumped declinedW include
    todo = Return pairs →
  ∀ p, p ∈ pairs →
    p.1 ∈ todo
    ∧ skipped bumped declinedW include p.1 = false
    ∧ ∃ pushed,
        fetchUndecidedDependentWorkspaces_deps project bumped p.1
          (dependencies p.1).*2 = Return pushed
        ∧ p ∈ pushed.
Proof.
  revert pairs. induction todo as [|workspace rest IH]; intros pairs.
  - intros [= <-] p Hp. by apply elem_of_nil in Hp.
  - rewrite loop_unfold.
    destruct (skipped bumped declinedW include workspace) eqn:Hskip.
    + intros Hrest p Hp. destruct (IH _ Hrest p Hp) as (? & ? & ?).
      split; [by right|done].
    + destruct (fetchUndecidedDependentWorkspaces_deps _ _ _ _)
        as [|pushed] eqn:Hdeps; [done|]. simpl.
      destruct (fetchUndecidedDependentWorkspaces_loop _ _ _ _ rest)
        as [|more]; [done|]. simpl.
      intros [= <-] p Hp. apply elem_of_app in Hp as [Hp|Hp].
      * rewrite (deps_dependent _ _ _ _ _ Hdeps p Hp).
        split; [by left|]. split; [done|]. by exists pushed.
      * destruct (IH _ eq_refl p Hp) as (? & ? & ?).
        split; [by right|done].
Qed.

Lemma loop_mono project bumped bumped' declinedW include todo pairs :
  bumped ⊆ bumped' →
  fetchUndecidedDependentWorkspaces_loop project bumped declinedW include
    todo = Return pairs →
  ∃ pairs',
    fetchUndecidedDependentWorkspaces_loop project bumped' declinedW include
      todo = Return pairs'
    ∧ ∀ p, p ∈ pairs →
        p.1 ∈ include ∨ bumped' !! locatorHash (anchoredLocator p.1) = None →
        p ∈ pairs'.
Proof.
  intros Hsub. revert pairs. induction todo as [|workspace rest IH];
    intros pairs.
  - intros [= <-]. exists []. split; [done|]. intros p Hp.
    by apply elem_of_nil in Hp.
  - rewrite !loop_unfold.
    destruct (skipped bumped declinedW include workspace) eqn:Hskip.
    + (* passed over before: passed over again *)
      assert (skipped bumped' declinedW include workspace = true) as ->.
      { unfold skipped in *.
        destruct (private _); [by rewrite orb_true_r|].
        destruct (bool_decide (version _ = None)); [by rewrite orb_true_r|].
        rewrite !orb_false_r in *.
        apply andb_true_iff in Hskip as [-> Hskip]. simpl.
        apply orb_true_iff in Hskip as [->|Hskip]; [done|].
        apply bool_decide_eq_true in Hskip as [d Hd].
        rewrite (lookup_weaken _ _ _ _ Hd Hsub).
        rewrite orb_true_iff. right. apply bool_decide_eq_true. by eexists. }
      apply IH.
    + destruct (fetchUndecidedDependentWorkspaces_deps _ bumped _ _)
        as [|pushed] eqn:Hdeps; [done|]. simpl.
      destruct (fetchUndecidedDependentWorkspaces_loop _ bumped _ _ rest)
        as [|more]; [done|]. simpl.
      intros [= <-].
      destruct (IH more eq_refl) as (more' & Hmore' & Hmore).
      destruct (deps_mono _ _ _ _ _ _ Hsub Hdeps) as (pushed' & Hdeps' & Hpushed).
      rewrite Hmore'.
      destruct (skipped bumped' declinedW include workspace) eqn:Hskip'.
      * (* newly passed over: its pairs are those the statement leaves out *)
        exists more'. split; [done|].
        intros p Hp Hkept. apply elem_of_app in Hp as [Hp|Hp]; [|by apply Hmore].
        exfalso. rewrite (deps_dependent _ _ _ _ _ Hdeps p Hp) in Hkept.
        unfold skipped in Hskip, Hskip'.
        destruct (private _); [by rewrite orb_true_r in Hskip|].
        destruct (bool_decide (version _ = None));
          [by rewrite orb_true_r in Hskip|].
        rewrite !orb_false_r in *.
        apply andb_true_iff in Hskip' as [Hinclude Hfound].
        apply negb_true_iff in Hinclude.
        rewrite Hinclude in Hskip. simpl in Hskip.
        apply bool_decide_eq_false in Hinclude.
        apply orb_false_iff in Hskip as [Hdeclined _].
        rewrite Hdeclined in Hfound. simpl in Hfound.
        apply bool_decide_eq_true in Hfound as [d Hd].
        destruct Hkept as [?|Hnone]; [done|congruence].
      * rewrite Hdeps'. simpl. eexists. split; [done|].
        intros p Hp Hkept. apply elem_of_app.
        apply elem_of_app in Hp as [Hp|Hp]; [left|right]; auto.
Qed.

(** C2. When decided ⊆ decided′, no two workspaces of decided′ sharing a
    locator hash, every pair emitted for decided whose dependent is in the
    include set or is not itself among decided′ is emitted for decided′;
    the run on decided′ returns when the run on decided does. *)
Theorem propagation_monotone_for_the_undecided project
    (decided decided' declined include : list Workspace)
    (pairs : list (Workspace * Workspace)) :
  decided ⊆ decided' →
  unique_locators decided' →
  fetchUndecidedDependentWorkspaces decided declined project include
  = Return pairs →
  ∃ pairs',
    fetchUndecidedDependentWorkspaces decided' declined project include
    = Return pairs'
    ∧ ∀ workspace dependency,
        (workspace, dependency) ∈ pairs →
        workspace ∈ include
        ∨ (∀ d, d ∈ decided' →
                locatorHash (anchoredLocator d)
                ≠ locatorHash (anchoredLocator workspace)) →
        (workspace, dependency) ∈ pairs'.
Proof.
  intros Hincl Hunique Hrun. unfold fetchUndecidedDependentWorkspaces in *.
  destruct (loop_mono _ _ _ _ _ _ _ (byLocatorHash_mono _ _ Hincl Hunique) Hrun)
    as (pairs' & Hrun' & Hkept).
  exists pairs'. split; [done|].
  intros workspace dependency Hin Hout. apply Hkept; [done|]. simpl.
  destruct Hout as [?|Hfresh]; [by left|right].
  by apply byLocatorHash_None.
Qed.

(** C5. The dependent of an emitted pair is neither private nor without a
    version. *)
Theorem propagation_dependents_are_public_and_versioned project
    (decided declined include : list Workspace)
    (pairs : list (Workspace * Workspace)) :
  fetchUndecidedDependentWorkspaces decided declined project include
  = Return pairs →
  ∀ workspace dependency,
    (workspace, dependency) ∈ pairs →
    private (manifest workspace) = false
    ∧ version (manifest workspace) ≠ None.
Proof.
  intros Hrun workspace dependency Hin.
  destruct (loop_origin _ _ _ _ _ _ Hrun _ Hin) as (_ & Hskip & _).
  simpl in Hskip. unfold skipped in Hskip.
  apply orb_false_iff in Hskip as [Hskip Hversion].
  apply orb_false_iff in Hskip as [_ Hprivate].
  split; [done|]. by apply bool_decide_eq_false in Hversion.
Qed.

(** C6. A pair (W, D) is emitted only when W is a workspace of the project
    with a dependency that resolves to D, and D is among the decided
    workspaces; a workspace none of whose own dependencies resolves to a
    decided workspace is not emitted, whatever its dependencies depend
    on. *)
Theorem propagation_is_a_single_hop project
    (decided declined include : list Workspace)
    (pairs : list (Workspace * Workspace)) :
  fetchUndecidedDependentWorkspaces decided declined project include
  = Return pairs →
  (∀ workspace dependency,
     (workspace, dependency) ∈ pairs →
     workspace ∈ workspaces project
     ∧ dependency ∈ decided
     ∧ ∃ ident descriptor,
         (ident, descriptor) ∈ dependencies workspace
         ∧ storedResolutions project !! descriptorHash descriptor
           = Some (locatorHash (anchoredLocator dependency)))
  ∧ (∀ workspace,
       (∀ ident descriptor resolution d,
          (ident, descriptor) ∈ dependencies workspace →
          storedResolutions project !! descriptorHash descriptor
          = Some resolution →
          d ∈ decided →
          locatorHash (anchoredLocator d) ≠ resolution) →
       workspace ∉ pairs.*1).
Proof.
  intros Hrun.
  assert (∀ workspace dependency,
     (workspace, dependency) ∈ pairs →
     workspace ∈ workspaces project
     ∧ dependency ∈ decided
     ∧ ∃ ident descriptor,
         (ident, descriptor) ∈ dependencies workspace
         ∧ storedResolutions project !! descriptorHash descriptor
           = Some (locatorHash (anchoredLocator dependency))) as Hedge.
  { intros workspace dependency Hin.
    destruct (loop_origin _ _ _ _ _ _ Hrun _ Hin)
      as (Hproject & _ & pushed & Hdeps & Hpushed).
    destruct (deps_edge _ _ _ _ _ Hdeps _ Hpushed)
      as (descriptor & resolution & Hdescriptor & Hresolution & Hbumped).
    simpl in *. apply byLocatorHash_Some in Hbumped as [Hdecided <-].
    split; [done|]. split; [done|].
    apply list_elem_of_fmap in Hdescriptor as ([ident descriptor'] & -> & Hd).
    by exists ident, descriptor'. }
  split; [done|].
  intros workspace Hfar Hemitted.
  apply list_elem_of_fmap in Hemitted as ([workspace' dependency] & -> & Hin).
  destruct (Hedge _ _ Hin) as (_ & Hdecided & ident & descriptor & Hd & Hres).
  by apply (Hfar ident descriptor _ dependency Hd Hres Hdecided).
Qed.

End Propagation.

Section MapFacts.
Context {K V : Type} `{EqDecision K}.
Implicit Types (m : list (K * V)) (k : K) (v : V).

Lemma Map_get_None m k : Map_get m k = None ↔ k ∉ m.*1.
Proof.
  induction m as [|[k' v'] m IH]; simpl.
  - split; [intros _; apply not_elem_of_nil | done].
  - rewrite not_elem_of_cons. destruct (decide (k' = k)) as [->|Hne].
    + split; [done | by intros [? _]].
    + rewrite IH. split; [by split; [congruence|] | by intros [_ ?]].
Qed.

Lemma Map_get_Some m k v : Map_get m k = Some v → (k, v) ∈ m.
Proof.
  induction m as [|[k' v'] m IH]; simpl; [done|].
  destruct (decide (k' = k)) as [->|Hne].
  - intros [= ->]. by left.
  - intros Hget. right. by apply IH.
Qed.

(** A key the map does not hold is added at the end. *)
Lemma Map_set_fresh m k v : k ∉ m.*1 → Map_set m k v = m ++ [(k, v)].
Proof.
  induction m as [|[k' v'] m IH]; simpl; [done|].
  rewrite not_elem_of_cons. intros [Hne Hfresh].
  destruct (decide (k' = k)); [congruence|]. by rewrite IH.
Qed.

(** A key the map holds stays where it stands. *)
Lemma Map_set_present m k v : k ∈ m.*1 → (Map_set m k v).*1 = m.*1.
Proof.
  induction m as [|[k' v'] m IH]; simpl.
  - by intros ?%elem_of_nil.
  - destruct (decide (k' = k)) as [->|Hne]; [done|].
    intros [?|Hin]%elem_of_cons; [congruence|].
    rewrite fmap_cons. simpl. f_equal. by apply IH.
Qed.

Lemma Map_set_elem m k v (e : K * V) :
  e ∈ Map_set m k v → e = (k, v) ∨ e ∈ m.
Proof.
  induction m as [|[k' v'] m IH]; simpl.
  - intros ->%list_elem_of_singleton. by left.
  - destruct (decide (k' = k)) as [->|Hne].
    + intros [->|Hin]%elem_of_cons; [by left | right; by right].
    + intros [->|Hin]%elem_of_cons; [right; by left|].
      destruct (IH Hin); [by left | right; by right].
Qed.

Lemma Map_set_NoDup m k v : NoDup m.*1 → NoDup (Map_set m k v).*1.
Proof.
  intros Hm. destruct (decide (k ∈ m.*1)) as [Hin|Hfresh].
  - by rewrite Map_set_present.
  - rewrite Map_set_fresh, fmap_app by done. simpl.
    apply NoDup_app. split; [done|]. split; [|apply NoDup_singleton].
    intros k' Hk' ->%list_elem_of_singleton. done.
Qed.

Lemma Map_delete_sublist m k : sublist (Map_delete m k) m.
Proof.
  induction m as [|[k' v'] m IH]; simpl; [done|].
  destruct (decide (k' = k)); [by apply sublist_cons | by apply sublist_skip].
Qed.

Lemma Map_delete_absent m k : NoDup m.*1 → k ∉ (Map_delete m k).*1.
Proof.
  induction m as [|[k' v'] m IH]; simpl.
  - intros _. apply not_elem_of_nil.
  - intros [Hk' Hm]%NoDup_cons. destruct (decide (k' = k)) as [->|Hne]; [done|].
    simpl. rewrite not_elem_of_cons. split; [congruence | by apply IH].
Qed.

End MapFacts.

Section Session.
Context `{JSNumber} `{Semver}.

Implicit Types (decisions : list (Workspace * BumpDecision)).
Implicit Types (workspace : Workspace) (decision : BumpDecision).

Lemma sparse_nil : sparse [].
Proof. split; [constructor | intros w; apply not_elem_of_nil]. Qed.

Lemma setDecision_sparse decisions workspace decision :
  sparse decisions → sparse (setDecision decisions workspace decision).
Proof.
  intros [Hkeys Hvalues]. unfold setDecision.
  destruct (decide (decision ≠ undecided_)) as [Hdecision|_]; split.
  - by apply Map_set_NoDup.
  - intros w [[= _ <-]|Hin]%Map_set_elem; [done | by apply (Hvalues w)].
  - eapply sublist_NoDup; [done|]. apply fmap_sublist, Map_delete_sublist.
  - intros w Hin. apply (Hvalues w).
    eapply elem_of_sublist; [done | apply Map_delete_sublist].
Qed.

Lemma Undecided_keypress_sparse decisions workspace active key_name copy :
  sparse decisions →
  Undecided_keypress decisions workspace active key_name = Some copy →
  sparse copy.
Proof.
  intros Hsparse. unfold Undecided_keypress.
  destruct (version (manifest workspace)); [|done].
  destruct (useListInput _ _ _ _ _ _) as [[decision'|]|]; try done.
  intros [= <-]. by apply setDecision_sparse.
Qed.

Lemma rows_keypress_sparse decisions (active : Workspace → bool)
    (key_name : string) (rows : list Workspace) current :
  sparse decisions →
  sparse current →
  sparse (foldl (λ current workspace,
                   match Undecided_keypress decisions workspace
                           (active workspace) key_name with
                   | Some copy => copy
                   | None => current
                   end) current rows).
Proof.
  intros Hsparse. revert current.
  induction rows as [|workspace rows IH]; intros current Hcurrent; simpl;
    [done|].
  apply IH.
  destruct (Undecided_keypress _ _ _ _) as [copy|] eqn:Hrow; [|done].
  eapply Undecided_keypress_sparse; [exact Hsparse | exact Hrow].
Qed.

Lemma App_keypress_sparse (session : Session) (listing : Listing)
    (key_name : string) :
  sparse (decisions session) →
  sparse (decisions (App_keypress session listing key_name)).
Proof.
  intros Hsparse. unfold App_keypress. simpl.
  by apply (rows_keypress_sparse (decisions session)
              (λ workspace, bool_decide (Some workspace = _))).
Qed.

Lemma renderForm_loop_sparse project status (session : Session)
    (keys : list string) submitted :
  sparse (decisions session) →
  renderForm_loop project status session keys = Return (Some submitted) →
  sparse submitted.
Proof.
  revert session. induction keys as [|key_name keys IH]; intros session;
    simpl; destruct (App_render project status session) as [|listing];
    simpl; try done.
  destruct (decide (key_name = "return")).
  - by intros Hsparse [= <-].
  - intros Hsparse. apply IH. by apply App_keypress_sparse.
Qed.

Lemma renderForm_loop_confirmed project status (session : Session)
    (keys : list string) decisions :
  renderForm_loop project status session keys = Return (Some decisions) →
  "return" ∈ keys.
Proof.
  revert session. induction keys as [|key_name keys IH]; intros session;
    simpl; destruct (App_render project status session) as [|listing];
    simpl; try done.
  destruct (decide (key_name = "return")) as [->|Hne].
  - intros _. by left.
  - intros Hrest. right. by eapply IH.
Qed.

Lemma renderForm_sparse project status (keys : list string) decisions :
  renderForm project status keys = Return (Some decisions) →
  sparse decisions.
Proof.
  unfold renderForm. destruct (applyDecisions project status []); [done|].
  simpl. apply renderForm_loop_sparse, sparse_nil.
Qed.

Lemma renderForm_confirmed project status (keys : list string) decisions :
  renderForm project status keys = Return (Some decisions) →
  "return" ∈ keys.
Proof.
  unfold renderForm. destruct (applyDecisions project status []); [done|].
  simpl. apply renderForm_loop_confirmed.
Qed.

(** *** The strategies of a row *)

(** The callback of a row finds an entry of the strategies at the index it
    computes, whatever the decision and the key: [set] is not called with
    undefined. *)
Lemma strategies_index_defined (currentVersion : string) decision
    (active : bool) (key_name : string) :
  useListInput (Some decision) (strategies currentVersion) active
    "left" "right" key_name ≠ Some None.
Proof.
  unfold useListInput, strategies.
  destruct active; [|done]. simpl.
  destruct (decide (key_name = "left")); [|destruct (decide (key_name = "right"))];
    [| |done];
    destruct (semver_prerelease currentVersion); destruct decision;
    vm_compute; discriminate.
Qed.

(** A first decision for a workspace is entered after the entries the
    decisions hold, and a changed decision where the entry stands. *)
Lemma setDecision_new_entry decisions workspace decision :
  decision ≠ undecided_ →
  Map_get decisions workspace = None →
  setDecision decisions workspace decision
  = decisions ++ [(workspace, decision)].
Proof.
  intros Hdecision Hnew. unfold setDecision.
  destruct (decide (decision ≠ undecided_)); [|done].
  by apply Map_set_fresh, Map_get_None.
Qed.

Lemma setDecision_changed_entry decisions workspace decision :
  decision ≠ undecided_ →
  Map_get decisions workspace ≠ None →
  (setDecision decisions workspace decision).*1 = decisions.*1.
Proof.
  intros Hdecision Hold. unfold setDecision.
  destruct (decide (decision ≠ undecided_)); [|done].
  apply Map_set_present.
  destruct (decide (workspace ∈ decisions.*1)) as [|Hfresh]; [done|].
  by apply Map_get_None in Hfresh.
Qed.

(** C7. The strategies of a workspace whose version is a prerelease are
    undecided, decline, prerelease and major; those of another workspace
    are undecided, decline, patch, minor, major and prerelease. The right
    key moves the decision of the row one entry forward and the left key
    one entry backward, around both ends: from the last entry forward to
    undecided, and from undecided backward to the last entry. *)
Theorem strategies_by_version_and_cycling (currentVersion : string) :
  let legal := strategies currentVersion in
  (semver_prerelease currentVersion ≠ None →
   legal = [undecided_; decline; prerelease; major])
  ∧ (semver_prerelease currentVersion = None →
     legal = [undecided_; decline; patch; minor; major; prerelease])
  ∧ (∀ i decision,
       legal !! i = Some decision →
       useListInput (Some decision) legal true "left" "right" "right"
       = Some (legal !! ((i + 1) mod length legal))
       ∧ useListInput (Some decision) legal true "left" "right" "left"
         = Some (legal !! ((i + length legal - 1) mod length legal)))
  ∧ useListInput (last legal) legal true "left" "right" "right"
    = Some (Some undecided_)
  ∧ useListInput (Some undecided_) legal true "left" "right" "left"
    = Some (last legal)
  ∧ (∀ decisions workspace,
       version (manifest workspace) = Some currentVersion →
       (Map_get decisions workspace = last legal →
        Undecided_keypress decisions workspace true "right"
        = Some (setDecision decisions workspace undecided_))
       ∧ (Map_get decisions workspace = None →
          Undecided_keypress decisions workspace true "left"
          = setDecision decisions workspace <$> last legal)).
Proof.
  unfold Undecided_keypress, strategies.
  destruct (semver_prerelease currentVersion) as [tags|] eqn:Hpre; simpl;
    (split; [done|]); (split; [done|]);
    (split; [|split; [done|split; [done|]]]).
  - intros i decision Hi.
    do 4 (destruct i as [|i]; [injection Hi as <-; by vm_compute|]).
    simpl in Hi. discriminate.
  - intros decisions workspace ->. rewrite Hpre. split; intros ->; done.
  - intros i decision Hi.
    do 6 (destruct i as [|i]; [injection Hi as <-; by vm_compute|]).
    simpl in Hi. discriminate.
  - intros decisions workspace ->. rewrite Hpre. split; intros ->; done.
Qed.

(** *** The decisions *)

(** C8. The decisions never hold an entry whose value is undecided, after
    any sequence of calls of [setDecision] and in what the form submits;
    recording undecided for a workspace removes its entry; and a row shows
    undecided exactly for a workspace without an entry. *)
Theorem decisions_never_hold_undecided :
  (∀ calls : list (Workspace * BumpDecision),
     sparse (foldl (λ decisions call, setDecision decisions call.1 call.2)
               [] calls))
  ∧ (∀ project status keys submitted,
       renderForm project status keys = Return (Some submitted) →
       sparse submitted)
  ∧ (∀ decisions workspace,
       sparse decisions →
       setDecision decisions workspace undecided_
       = Map_delete decisions workspace
       ∧ Map_get (setDecision decisions workspace undecided_) workspace
         = None)
  ∧ (∀ decisions workspace,
       sparse decisions →
       default undecided_ (Map_get decisions workspace) = undecided_
       ↔ Map_get decisions workspace = None).
Proof.
  split; [|split; [|split]].
  - intros calls. generalize sparse_nil.
    generalize (@nil (Workspace * BumpDecision)) as decisions.
    induction calls as [|call calls IH]; intros decisions Hsparse; simpl;
      [done|].
    by apply IH, setDecision_sparse.
  - intros project status keys submitted. apply renderForm_sparse.
  - intros decisions workspace [Hkeys _]. split; [done|].
    apply Map_get_None. by apply Map_delete_absent.
  - intros decisions workspace [_ Hvalues].
    destruct (Map_get decisions workspace) as [decision|] eqn:Hget; simpl;
      [|done].
    split; [|done]. intros ->. apply Map_get_Some in Hget.
    by apply Hvalues in Hget.
Qed.

(** *** The apply actions *)

Lemma executeInteractive_apply_acc decisions (effects : list Effect) :
  foldl (λ effects entry,
           let '(workspace, decision) := entry in
           if decide (decision ≠ undecided_) then
             effects ++ [CliRun [cwd workspace; "version"; token decision;
                                 "--deferred"]]
           else effects)
    effects decisions
  = effects
    ++ (applyAction <$> filter (λ entry, entry.2 ≠ undecided_) decisions).
Proof.
  revert effects. induction decisions as [|[workspace decision] rest IH];
    intros effects; simpl.
  - by rewrite app_nil_r.
  - rewrite IH, filter_cons. simpl.
    destruct (decide (decision ≠ undecided_)); [|done].
    by rewrite <- app_assoc.
Qed.

Lemma executeInteractive_apply_sparse decisions :
  sparse decisions →
  executeInteractive_apply decisions = applyAction <$> decisions.
Proof.
  intros [_ Hvalues]. unfold executeInteractive_apply.
  rewrite executeInteractive_apply_acc. simpl. f_equal.
  induction decisions as [|[workspace decision] rest IH]; [done|].
  rewrite filter_cons. simpl.
  destruct (decide (decision ≠ undecided_)) as [_|Hundecided].
  - f_equal. apply IH. intros w Hw. apply (Hvalues w). by right.
  - exfalso. apply (Hvalues workspace).
    destruct (decide (decision = undecided_)) as [->|]; [by left|done].
Qed.

(** Once the form is shown, the command returns by what the form returns. *)
Lemma executeInteractive_shown project owner (files : list string) base
    (keys : list string) :
  formShown project owner files base →
  executeInteractive project owner files base keys
  = (submitted ←! renderForm project
                    (fetchWorkspacesStatus (Set_of (owner <$> files)) base)
                    keys;
     match submitted with
     | None => Return (Some 1%Z, [])
     | Some decisions => Return (None, executeInteractive_apply decisions)
     end).
Proof.
  intros [Hfiles Hrows]. unfold executeInteractive.
  destruct (decide (length (Set_of (owner <$> files)) = 0)) as [Hempty|_].
  { by apply length_zero_iff_nil in Hempty. }
  destruct (decide (length (undecided _) = 0)) as [Hempty|_]; [|done].
  destruct Hrows as [Hundecided|(pair & pairs & ->)].
  - by apply length_zero_iff_nil in Hempty.
  - done.
Qed.

(** Apply actions are run only on what the form has submitted. *)
Lemma executeInteractive_effects project owner (files : list string) base
    (keys : list string) (code : option Z) (effects : list Effect) :
  executeInteractive project owner files base keys = Return (code, effects) →
  effects ≠ [] →
  ∃ submitted,
    renderForm project
      (fetchWorkspacesStatus (Set_of (owner <$> files)) base) keys
    = Return (Some submitted)
    ∧ effects = executeInteractive_apply submitted.
Proof.
  unfold executeInteractive.
  destruct (decide (length (Set_of (owner <$> files)) = 0));
    [by intros [= <- <-]|].
  destruct (decide (length (undecided _) = 0)).
  - destruct (fetchUndecidedDependentWorkspaces _ _ _ _) as [|dependents];
      [done|]. simpl.
    destruct (bool_decide (length dependents = 0)); [by intros [= <- <-]|].
    destruct (renderForm _ _ _) as [|[submitted|]]; simpl; [done| |].
    + intros [= <- <-] _. by exists submitted.
    + by intros [= <- <-].
  - simpl. destruct (renderForm _ _ _) as [|[submitted|]]; simpl; [done| |].
    + intros [= <- <-] _. by exists submitted.
    + by intros [= <- <-].
Qed.

(** C3. When the form is confirmed, the command runs one apply action for
    each entry of the submitted decisions, with the strategy of the entry,
    in the order in which the decisions hold their entries; the decisions
    hold one entry for a workspace at most and none that is undecided. *)
Theorem apply_actions_follow_the_decisions project owner
    (files : list string) base (keys : list string) submitted :
  formShown project owner files base →
  renderForm project (fetchWorkspacesStatus (Set_of (owner <$> files)) base)
    keys = Return (Some submitted) →
  executeInteractive project owner files base keys
  = Return (None, applyAction <$> submitted)
  ∧ NoDup submitted.*1
  ∧ (∀ workspace, (workspace, undecided_) ∉ submitted).
Proof.
  intros Hshown Hform.
  pose proof (renderForm_sparse _ _ _ _ Hform) as Hsparse.
  rewrite (executeInteractive_shown _ _ _ _ _ Hshown), Hform. simpl.
  rewrite (executeInteractive_apply_sparse _ Hsparse).
  split; [done|]. exact Hsparse.
Qed.

(** C4. When the form is shown and exits without having been confirmed,
    the command returns 1 and runs no apply action; the form submits
    nothing unless the return key is pressed, so that the command returns
    1 with no apply action whenever the form exits and that key was not
    pressed; and an apply action is run only when the return key was
    pressed and the form has submitted its decisions. *)
Theorem aborted_session_applies_nothing project owner
    (files : list string) base (keys : list string) :
  let status := fetchWorkspacesStatus (Set_of (owner <$> files)) base in
  (formShown project owner files base →
   renderForm project status keys = Return None →
   executeInteractive project owner files base keys
   = Return (Some 1%Z, []))
  ∧ ("return" ∉ keys →
     (∀ submitted, renderForm project status keys ≠ Return (Some submitted))
     ∧ (formShown project owner files base →
        ∀ returned,
          renderForm project status keys = Return returned →
          executeInteractive project owner files base keys
          = Return (Some 1%Z, [])))
  ∧ (∀ code effects,
       executeInteractive project owner files base keys
       = Return (code, effects) →
       effects ≠ [] →
       "return" ∈ keys
       ∧ ∃ submitted, renderForm project status keys = Return (Some submitted)).
Proof.
  simpl. split; [|split].
  - intros Hshown Hform.
    by rewrite (executeInteractive_shown _ _ _ _ _ Hshown), Hform.
  - intros Hkeys.
    assert (∀ submitted,
              renderForm project
                (fetchWorkspacesStatus (Set_of (owner <$> files)) base) keys
              ≠ Return (Some submitted)) as Hnone.
    { intros submitted Hform. by apply renderForm_confirmed in Hform. }
    split; [done|].
    intros Hshown [submitted|] Hform; [by apply Hnone in Hform|].
    by rewrite (executeInteractive_shown _ _ _ _ _ Hshown), Hform.
  - intros code effects Hrun Heffects.
    destruct (executeInteractive_effects _ _ _ _ _ _ _ Hrun Heffects)
      as (submitted & Hform & _).
    split; [by eapply renderForm_confirmed | by exists submitted].
Qed.

End Session.

Section Report.
Context `{JSNumber}.

Lemma errors_app (report more : list Effect) :
  existsb isReportError (report ++ more)
  = existsb isReportError report || existsb isReportError more.
Proof. apply existsb_app. Qed.

Lemma errors_fmap_info {A} (f : A → Message) (l : list A) :
  existsb isReportError (ReportInfo ∘ f <$> l) = false.
Proof. induction l; simpl; auto. Qed.

Lemma errors_fmap_error {A} (f : A → Message) (l : list A) :
  existsb isReportError (ReportError ∘ f <$> l) = bool_decide (l ≠ []).
Proof.
  destruct l as [|a l]; [done|].
  change (true = bool_decide (a :: l ≠ [])).
  symmetry. by apply bool_decide_eq_true.
Qed.

Lemma reportOnly_fmap {A} (f : A → Effect) (l : list A) :
  (∀ a, reportOnly (f a)) → Forall reportOnly (f <$> l).
Proof. intros Hf. apply Forall_fmap, Forall_forall. intros a _. apply Hf. Qed.

Lemma executeStandard_dependents_fold (files : list string)
    (hasDiffErrors : bool) (pairs : list (Workspace * Workspace))
    (report : list Effect) (hasDepsErrors : bool) :
  let after := foldl (executeStandard_dependent files hasDiffErrors)
                 (report, hasDepsErrors) pairs in
  existsb isReportError after.1
  = existsb isReportError report || bool_decide (pairs ≠ [])
  ∧ after.2 = hasDepsErrors || bool_decide (pairs ≠ [])
  ∧ (Forall reportOnly report → Forall reportOnly after.1).
Proof.
  revert report hasDepsErrors.
  induction pairs as [|[workspace dependency] pairs IH];
    intros report hasDepsErrors; simpl.
  - rewrite !orb_false_r. done.
  - destruct (IH ((if negb hasDepsErrors
                      && (bool_decide (0 < length files) || hasDiffErrors)
                   then report ++ [ReportSeparator] else report)
                  ++ [ReportError (NoStrategyButDepends workspace dependency)])
                true) as (Herrors & Hflag & Honly).
    rewrite Herrors, Hflag, errors_app.
    change (existsb isReportError [ReportError _]) with true.
    rewrite !orb_true_r.
    split; [done|]. split; [done|].
    intros Hreport. apply Honly, Forall_app. split.
    + destruct (negb _ && _); [|done].
      apply Forall_app. split; [done|]. by repeat constructor.
    + by repeat constructor.
Qed.

(** C9. When the propagation returns its pairs, the report mode returns
    the exit code of its report, which is other than 0 exactly when a
    workspace is undecided or a pair was emitted, and every effect of the
    command is a line of the report: no apply action is run. *)
Theorem report_mode_fails_on_what_is_outstanding project owner
    (files : list string) (baseHash baseMessage : string) base
    (pairs : list (Workspace * Workspace)) :
  let status := fetchWorkspacesStatus (Set_of (owner <$> files)) base in
  fetchUndecidedDependentWorkspaces (decided status) (declined status)
    project [] = Return pairs →
  ∃ report,
    executeStandard project owner files baseHash baseMessage base
    = Return (exitCode report, report)
    ∧ (exitCode report ≠ 0%Z ↔ undecided status ≠ [] ∨ pairs ≠ [])
    ∧ ∀ args, CliRun args ∉ report.
Proof.
  intros status Hpairs. unfold executeStandard. fold status.
  set (started := [ReportInfo (StartedAfter _ _)]).
  set (listed := if decide (0 < length files) then _ else started).
  assert (existsb isReportError listed = false ∧ Forall reportOnly listed)
    as [Hlisted Hlisted_only].
  { unfold listed. destruct (decide (0 < length files)).
    - split.
      + rewrite !errors_app, (errors_fmap_info File). done.
      + apply Forall_app. split; [by repeat constructor|].
        apply Forall_app. split; [by repeat constructor|].
        by apply reportOnly_fmap.
    - split; [done | by repeat constructor]. }
  set (diagnosed := if decide (0 < length (undecided status)) then _ else _).
  assert (existsb isReportError diagnosed.1
          = bool_decide (undecided status ≠ [])
          ∧ diagnosed.2 = bool_decide (undecided status ≠ [])
          ∧ Forall reportOnly diagnosed.1) as (Hdiagnosed & Hflag & Honly).
  { unfold diagnosed. destruct (decide (0 < length (undecided status)))
      as [Hsome|Hnone]; simpl.
    - assert (undecided status ≠ []) as Hne.
      { intros Hnil. rewrite Hnil in Hsome. simpl in Hsome. lia. }
      rewrite errors_app, (errors_fmap_error NoStrategy).
      rewrite !(bool_decide_true (undecided status ≠ [])) by done.
      rewrite orb_true_r.
      split; [done|]. split; [done|].
      apply Forall_app. split; [|by apply reportOnly_fmap].
      destruct (bool_decide (0 < length files)); [|done].
      apply Forall_app. split; [done | by repeat constructor].
    - assert (undecided status = []) as Hnil.
      { destruct (undecided status); [done|]. simpl in Hnone. lia. }
      rewrite Hnil. by rewrite bool_decide_false by (intros Hne; done). }
  destruct diagnosed as [report hasDiffErrors] eqn:Hdiag. simpl in *.
  rewrite Hpairs. simpl.
  pose proof (executeStandard_dependents_fold files hasDiffErrors pairs
                report false) as Hfold.
  destruct (foldl _ _ pairs) as [report' hasDepsErrors]. simpl in Hfold.
  destruct Hfold as (Herrors & Hdeps & Honly').
  eexists. split; [reflexivity|].
  set (final := if hasDiffErrors || hasDepsErrors then _ else report').
  assert (existsb isReportError final = existsb isReportError report'
          ∧ Forall reportOnly final) as [Hfinal Hfinal_only].
  { unfold final. destruct (hasDiffErrors || hasDepsErrors).
    - split.
      + rewrite errors_app. simpl. by rewrite orb_false_r.
      + apply Forall_app. split; [by apply Honly' | by repeat constructor].
    - split; [done | by apply Honly']. }
  split.
  - unfold exitCode. rewrite Hfinal, Herrors, Hdiagnosed.
    destruct (bool_decide (undecided status ≠ [])) eqn:Hu;
      destruct (bool_decide (pairs ≠ [])) eqn:Hp; simpl;
      try apply bool_decide_eq_true in Hu;
      try apply bool_decide_eq_true in Hp;
      try apply bool_decide_eq_false in Hu;
      try apply bool_decide_eq_false in Hp;
      split; try done; auto; intros [?|?]; done.
  - intros args Hin.
    rewrite Forall_forall in Hfinal_only.
    by apply (Hfinal_only _ Hin args).
Qed.

End Report.

(** * Further properties *)

Section Buckets.
Context `{JSNumber}.

Lemma fetchWorkspacesStatus_from (workspaces : list Workspace)
    (base : Workspace → option Manifest) (status : Status) :
  let final := foldl (fetchWorkspacesStatus_step base) status workspaces in
  undecided final
  = undecided status
    ++ filter (λ w, version (manifest w) ≠ None
                    ∧ getNonce (manifest w) = fetchPreviousNonce w base)
         workspaces
  ∧ decided final
    = decided status
      ++ filter (λ w, version (manifest w) ≠ None
                      ∧ getNonce (manifest w) ≠ fetchPreviousNonce w base
                      ∧ willBeReleased (manifest w) = true)
           workspaces
  ∧ declined final
    = declined status
      ++ filter (λ w, version (manifest w) ≠ None
                      ∧ getNonce (manifest w) ≠ fetchPreviousNonce w base
                      ∧ willBeReleased (manifest w) = false)
           workspaces.
Proof.
  revert status. induction workspaces as [|w workspaces IH]; intros status.
  - simpl. by rewrite !app_nil_r.
  - cbn [foldl].
    destruct (IH (fetchWorkspacesStatus_step base status w))
      as (Hundecided & Hdecided & Hdeclined).
    cbv zeta. rewrite Hundecided, Hdecided, Hdeclined. clear.
    unfold fetchWorkspacesStatus_step.
    destruct (version (manifest w)) as [v|] eqn:Hversion.
    + destruct (decide (getNonce (manifest w) = fetchPreviousNonce w base))
        as [Hsame|Hchanged]; simpl.
      * rewrite (filter_cons_True _ w) by (by rewrite Hversion).
        rewrite !(filter_cons_False _ w) by (rewrite Hversion; tauto).
        by rewrite <- app_assoc.
      * destruct (willBeReleased (manifest w)) eqn:Hreleased; simpl.
        -- rewrite (filter_cons_False _ w) by (rewrite Hversion; tauto).
           rewrite (filter_cons_True _ w) by (by rewrite Hversion, Hreleased).
           rewrite (filter_cons_False _ w)
             by (rewrite Hversion, Hreleased; intros (_ & _ & [=])).
           by rewrite <- app_assoc.
        -- rewrite (filter_cons_False _ w) by (rewrite Hversion; tauto).
           rewrite (filter_cons_False _ w)
             by (rewrite Hversion, Hreleased; intros (_ & _ & [=])).
           rewrite (filter_cons_True _ w) by (by rewrite Hversion, Hreleased).
           by rewrite <- app_assoc.
    + rewrite !(filter_cons_False _ w) by (rewrite Hversion; tauto). done.
Qed.

(** X1. Each bucket of the status is the list of the workspaces given that
    belong to it, in the order given: the workspaces without a version are
    in none, and every other workspace is in one bucket and one only, as
    many times as it is given. *)
Theorem fetchWorkspacesStatus_buckets (workspaces : list Workspace)
    (base : Workspace → option Manifest) :
  let status := fetchWorkspacesStatus workspaces base in
  undecided status
  = filter (λ w, version (manifest w) ≠ None
                 ∧ getNonce (manifest w) = fetchPreviousNonce w base)
      workspaces
  ∧ decided status
    = filter (λ w, version (manifest w) ≠ None
                   ∧ getNonce (manifest w) ≠ fetchPreviousNonce w base
                   ∧ willBeReleased (manifest w) = true)
        workspaces
  ∧ declined status
    = filter (λ w, version (manifest w) ≠ None
                   ∧ getNonce (manifest w) ≠ fetchPreviousNonce w base
                   ∧ willBeReleased (manifest w) = false)
        workspaces.
Proof.
  apply (fetchWorkspacesStatus_from workspaces base
           {| decided := []; undecided := []; declined := [] |}).
Qed.

Lemma fetchWorkspacesStatus_undecided_versioned
    (workspaces : list Workspace) (base : Workspace → option Manifest)
    (workspace : Workspace) :
  workspace ∈ undecided (fetchWorkspacesStatus workspaces base) →
  version (manifest workspace) ≠ None.
Proof.
  unfold fetchWorkspacesStatus.
  destruct (fetchWorkspacesStatus_from workspaces base
              {| decided := []; undecided := []; declined := [] |})
    as (-> & _).
  intros Hin. apply list_elem_of_filter in Hin as [[Hversion _] _]. done.
Qed.

End Buckets.

Section Dependents.
Context `{JSNumber}.

Implicit Types (project : Project) (workspace dependency : Workspace).
Implicit Types (bumped declinedW : gmap string Workspace).

Lemma skipped_false_visited (decided declined include : list Workspace)
    workspace :
  skipped (byLocatorHash decided) (byLocatorHash declined) include workspace
  = false
  ↔ visited decided declined include workspace.
Proof.
  unfold skipped, visited. cbv zeta.
  rewrite !orb_false_iff, andb_false_iff, negb_false_iff, orb_false_iff.
  rewrite !bool_decide_eq_false, bool_decide_eq_true.
  rewrite <- !eq_None_not_Some, !byLocatorHash_None.
  split.
  - intros [[[Hinclude|[Hdeclined Hdecided]] Hprivate] Hversion];
      (split; [|done]); [by left|right].
    intros other [Hin|Hin]%elem_of_app; auto.
  - intros ([Hinclude|Hfresh] & Hprivate & Hversion);
      (split; [split; [|done]|done]); [by left|right].
    split; intros other Hin; apply Hfresh, elem_of_app; auto.
Qed.

Lemma deps_complete project bumped workspace descriptors pairs
    (descriptor : Descriptor) (resolution : string) dependency :
  fetchUndecidedDependentWorkspaces_deps project bumped workspace descriptors
  = Return pairs →
  descriptor ∈ descriptors →
  storedResolutions project !! descriptorHash descriptor = Some resolution →
  bumped !! resolution = Some dependency →
  (workspace, dependency) ∈ pairs.
Proof.
  revert pairs. induction descriptors as [|first rest IH]; simpl;
    intros pairs Hrun Hin Hresolution Hbumped.
  - by apply elem_of_nil in Hin.
  - destruct (storedResolutions project !! descriptorHash first)
      as [resolution'|] eqn:Hfirst; [|done].
    destruct (storedPackages project !! resolution') as [pkg|]; [|done].
    destruct (fetchUndecidedDependentWorkspaces_deps _ _ _ rest)
      as [|more]; [done|]. simpl in Hrun. injection Hrun as <-.
    apply elem_of_app. apply elem_of_cons in Hin as [->|Hin].
    + left. rewrite Hfirst in Hresolution. injection Hresolution as ->.
      rewrite Hbumped. by left.
    + right. by apply (IH more).
Qed.

Lemma deps_returns project bumped workspace descriptors :
  (∃ pairs,
     fetchUndecidedDependentWorkspaces_deps project bumped workspace
       descriptors = Return pairs)
  ↔ ∀ descriptor,
      descriptor ∈ descriptors →
      ∃ resolution,
        storedResolutions project !! descriptorHash descriptor
        = Some resolution
        ∧ is_Some (storedPackages project !! resolution).
Proof.
  induction descriptors as [|first rest IH]; simpl.
  - split; [|by eexists]. intros _ d Hd. by apply elem_of_nil in Hd.
  - destruct (storedResolutions project !! descriptorHash first)
      as [resolution|] eqn:Hfirst.
    + destruct (storedPackages project !! resolution) as [pkg|] eqn:Hpkg.
      * destruct (fetchUndecidedDependentWorkspaces_deps _ _ _ rest)
          as [message|more]; simpl.
        -- split; [by intros [? ?]|]. intros Hall.
           destruct (proj2 IH) as [? ?]; [|done].
           intros d Hd. apply Hall. by right.
        -- split; [|by eexists]. intros _ d [->|Hd]%elem_of_cons.
           ++ exists resolution. by rewrite Hpkg.
           ++ apply (proj1 IH); [by eexists | done].
      * split; [by intros [? ?]|]. intros Hall.
        destruct (Hall first) as (r & Hr & [pkg Hp]); [by left|].
        congruence.
    + split; [by intros [? ?]|]. intros Hall.
      destruct (Hall first) as (r & Hr & _); [by left|]. congruence.
Qed.

Lemma loop_complete project bumped declinedW include todo pairs workspace :
  fetchUndecidedDependentWorkspaces_loop project bumped declinedW include
    todo = Return pairs →
  workspace ∈ todo →
  skipped bumped declinedW include workspace = false →
  ∃ pushed,
    fetchUndecidedDependentWorkspaces_deps project bumped workspace
      (dependencies workspace).*2 = Return pushed
    ∧ pushed ⊆ pairs.
Proof.
  revert pairs. induction todo as [|first rest IH]; intros pairs Hrun Hin Hskip.
  - by apply elem_of_nil in Hin.
  - rewrite loop_unfold in Hrun.
    destruct (skipped bumped declinedW include first) eqn:Hfirst.
    + apply elem_of_cons in Hin as [->|Hin]; [congruence|]. by apply IH.
    + destruct (fetchUndecidedDependentWorkspaces_deps _ _ first _)
        as [|pushed] eqn:Hdeps; [done|]. simpl in Hrun.
      destruct (fetchUndecidedDependentWorkspaces_loop _ _ _ _ rest)
        as [|more]; [done|]. simpl in Hrun. injection Hrun as <-.
      apply elem_of_cons in Hin as [->|Hin].
      * exists pushed. split; [done|]. intros p Hp. apply elem_of_app. by left.
      * destruct (IH more eq_refl Hin Hskip) as (pushed' & Hpushed' & Hsub).
        exists pushed'. split; [done|]. intros p Hp. apply elem_of_app.
        right. by apply Hsub.
Qed.

Lemma loop_returns project bumped declinedW include todo :
  (∃ pairs,
     fetchUndecidedDependentWorkspaces_loop project bumped declinedW include
       todo = Return pairs)
  ↔ ∀ workspace,
      workspace ∈ todo →
      skipped bumped declinedW include workspace = false →
      ∃ pushed,
        fetchUndecidedDependentWorkspaces_deps project bumped workspace
          (dependencies workspace).*2 = Return pushed.
Proof.
  induction todo as [|first rest IH].
  - split; [|by eexists]. intros _ w Hw. by apply elem_of_nil in Hw.
  - rewrite loop_unfold.
    destruct (skipped bumped declinedW include first) eqn:Hfirst.
    + rewrite IH. split.
      * intros Hall w [->|Hw]%elem_of_cons Hskip; [congruence|]. by apply Hall.
      * intros Hall w Hw. apply Hall. by right.
    + destruct (fetchUndecidedDependentWorkspaces_deps _ _ first _)
        as [message|pushed] eqn:Hdeps; simpl.
      * split; [by intros [? ?]|]. intros Hall.
        destruct (Hall first) as [? ?]; [by left|done|congruence].
      * destruct (fetchUndecidedDependentWorkspaces_loop _ _ _ _ rest)
          as [message|more]; simpl.
        -- split; [by intros [? ?]|]. intros Hall.
           destruct (proj2 IH) as [? ?]; [|done].
           intros w Hw. apply Hall. by right.
        -- split; [|by eexists].
           intros _ w [->|Hw]%elem_of_cons Hskip; [by eexists|].
           apply (proj1 IH); [by eexists|done|done].
Qed.

(** X2. The propagation emits every direct dependent it comes to: when a
    workspace of the project that the loop visits has a dependency whose
    stored resolution is the locator hash of a decided workspace, a pair
    of this workspace and of a decided workspace with that locator hash is
    emitted. *)
Theorem propagation_emits_every_direct_dependent project
    (decided declined include : list Workspace)
    (pairs : list (Workspace * Workspace)) workspace dependency
    (ident : string) (descriptor : Descriptor) :
  fetchUndecidedDependentWorkspaces decided declined project include
  = Return pairs →
  workspace ∈ workspaces project →
  visited decided declined include workspace →
  (ident, descriptor) ∈ dependencies workspace →
  dependency ∈ decided →
  storedResolutions project !! descriptorHash descriptor
  = Some (locatorHash (anchoredLocator dependency)) →
  ∃ emitted,
    (workspace, emitted) ∈ pairs
    ∧ emitted ∈ decided
    ∧ locatorHash (anchoredLocator emitted)
      = locatorHash (anchoredLocator dependency).
Proof.
  intros Hrun Hproject Hvisited Hdescriptor Hdecided Hresolution.
  apply skipped_false_visited in Hvisited.
  destruct (loop_complete _ _ _ _ _ _ _ Hrun Hproject Hvisited)
    as (pushed & Hdeps & Hsub).
  destruct (byLocatorHash_is_Some decided dependency Hdecided)
    as [emitted Hemitted].
  exists emitted. split.
  - apply Hsub. eapply deps_complete; [done| |done|done].
    apply list_elem_of_fmap. by exists (ident, descriptor).
  - by apply byLocatorHash_Some in Hemitted.
Qed.

(** X3. The propagation returns exactly when every dependency of every
    workspace it visits has a stored resolution that is a stored package;
    it throws otherwise, and a dependency that is not registered does no
    harm in a workspace that is passed over. *)
Theorem propagation_returns_iff_registered project
    (decided declined include : list Workspace) :
  (∃ pairs,
     fetchUndecidedDependentWorkspaces decided declined project include
     = Return pairs)
  ↔ ∀ workspace,
      workspace ∈ workspaces project →
      visited decided declined include workspace →
      registered project workspace.
Proof.
  unfold fetchUndecidedDependentWorkspaces. cbv zeta.
  rewrite loop_returns. unfold registered.
  split; intros Hall workspace Hproject Hvisited.
  - apply skipped_false_visited in Hvisited.
    intros ident descriptor Hd.
    apply (proj1 (deps_returns _ _ _ _) (Hall _ Hproject Hvisited)).
    apply list_elem_of_fmap. by exists (ident, descriptor).
  - apply skipped_false_visited in Hvisited.
    apply deps_returns. intros descriptor Hd.
    apply list_elem_of_fmap in Hd as ([ident d] & -> & Hd).
    by apply (Hall _ Hproject Hvisited ident d).
Qed.

(** X4. A dependent is emitted only for a workspace that the loop visits:
    one that is in the include set or shares its locator hash with no
    decided and no declined workspace. *)
Theorem propagation_dependents_are_undecided_or_included project
    (decided declined include : list Workspace)
    (pairs : list (Workspace * Workspace)) workspace dependency :
  fetchUndecidedDependentWorkspaces decided declined project include
  = Return pairs →
  (workspace, dependency) ∈ pairs →
  workspace ∈ include
  ∨ ∀ other, other ∈ decided ++ declined →
             locatorHash (anchoredLocator other)
             ≠ locatorHash (anchoredLocator workspace).
Proof.
  intros Hrun Hin.
  destruct (loop_origin _ _ _ _ _ _ Hrun _ Hin) as (_ & Hskip & _).
  apply skipped_false_visited in Hskip as [Hvisited _]. done.
Qed.


End Dependents.

Section ListInput.
Context {T : Type} `{EqDecision T}.

Implicit Types (values : list T) (value : option T).

Lemma indexOf_bounds values value :
  (-1 ≤ indexOf values value < Z.of_nat (length values))%Z.
Proof.
  induction values as [|v rest IH]; simpl; [lia|].
  destruct (decide (Some v = value)); [lia|].
  destruct (decide (indexOf rest value < 0)%Z); lia.
Qed.

Lemma indexOf_lookup values value :
  (0 ≤ indexOf values value)%Z →
  ∃ v, value = Some v ∧ values !! Z.to_nat (indexOf values value) = Some v.
Proof.
  induction values as [|v rest IH]; simpl; [lia|].
  destruct (decide (Some v = value)) as [<-|Hne]; [by exists v|].
  destruct (decide (indexOf rest value < 0)%Z); [lia|]. intros _.
  destruct IH as (v' & -> & Hv'); [lia|]. exists v'. split; [done|].
  replace (Z.to_nat (1 + indexOf rest (Some v')))
    with (S (Z.to_nat (indexOf rest (Some v')))) by lia.
  done.
Qed.

Lemma indexOf_not_listed values value :
  (∀ v, value = Some v → v ∉ values) → indexOf values value = (-1)%Z.
Proof.
  intros Hout. pose proof (indexOf_bounds values value).
  destruct (decide (0 ≤ indexOf values value)%Z) as [Hfound|]; [|lia].
  destruct (indexOf_lookup _ _ Hfound) as (v & -> & Hv).
  exfalso. apply (Hout v eq_refl). by eapply list_elem_of_lookup_2.
Qed.

Lemma indexOf_NoDup values (i : nat) (v : T) :
  NoDup values → values !! i = Some v →
  indexOf values (Some v) = Z.of_nat i.
Proof.
  intros Hvalues. revert i. induction Hvalues as [|first rest Hfirst _ IH];
    intros i Hi; [done|]. simpl.
  destruct i as [|i]; simpl in Hi.
  - injection Hi as ->. by destruct (decide (Some v = Some v)).
  - destruct (decide (Some first = Some v)) as [[= ->]|_].
    + exfalso. apply Hfirst. by eapply list_elem_of_lookup_2.
    + rewrite (IH i Hi). destruct (decide (Z.of_nat i < 0)%Z); lia.
Qed.

(** [values[a % values.length]] is an entry of the array for the two
    indices the callback computes. *)
Lemma at_index_rem values (a : Z) :
  values ≠ [] →
  (0 ≤ a)%Z ∨ (a = (-1)%Z ∧ length values = 1) →
  ∃ v,
    at_index values (js_rem a (Z.of_nat (length values))) = Some v
    ∧ v ∈ values.
Proof.
  intros Hvalues Ha.
  assert (0 < Z.of_nat (length values))%Z as Hlength.
  { destruct values; [done|]. simpl. lia. }
  unfold js_rem, at_index.
  destruct (decide (Z.of_nat (length values) = 0)%Z); [lia|].
  assert (0 ≤ Z.rem a (Z.of_nat (length values))
          < Z.of_nat (length values))%Z as Hrem.
  { destruct Ha as [Ha|[-> Hone]].
    - by apply Z.rem_bound_pos.
    - replace (Z.of_nat (length values)) with 1%Z by lia.
      rewrite Z.rem_1_r. lia. }
  destruct (decide (0 ≤ Z.rem a (Z.of_nat (length values)))%Z); [|lia].
  destruct (lookup_lt_is_Some_2 values
              (Z.to_nat (Z.rem a (Z.of_nat (length values))))) as [v Hv];
    [lia|].
  exists v. split; [done|]. by eapply list_elem_of_lookup_2.
Qed.

Lemma useListInput_called value values (active : bool)
    (minus plus key_name : string) :
  is_Some (useListInput value values active minus plus key_name)
  ↔ active = true ∧ (key_name = minus ∨ key_name = plus).
Proof.
  unfold useListInput. cbv zeta. destruct active; simpl.
  - destruct (decide (key_name = minus)); [by split; [auto|eexists]|].
    destruct (decide (key_name = plus)); [by split; [auto|eexists]|].
    split; [by intros [? ?]|]. intros [_ [?|?]]; done.
  - split; [by intros [? ?] | by intros [? _]].
Qed.

(** X5. The callback of [useListInput] calls [set] exactly when the hook
    is active and the key is the minus or the plus key; it calls it with
    an entry of the array when the array has one, whatever the current
    value, and with undefined when the array is empty. *)
Theorem useListInput_sets_an_entry value values (active : bool)
    (minus plus key_name : string) :
  (is_Some (useListInput value values active minus plus key_name)
   ↔ active = true ∧ (key_name = minus ∨ key_name = plus))
  ∧ (∀ argument,
       useListInput value values active minus plus key_name = Some argument →
       (values = [] → argument = None)
       ∧ (values ≠ [] → ∃ v, argument = Some v ∧ v ∈ values)).
Proof.
  split; [apply useListInput_called|].
  unfold useListInput. cbv zeta.
  - intros argument. destruct active; [|done]. simpl.
    pose proof (indexOf_bounds values value) as Hindex.
    destruct (decide (key_name = minus)) as [_|_];
      [|destruct (decide (key_name = plus)) as [_|_]; [|done]];
      intros [= <-]; (split; [by intros ->|]); intros Hvalues.
    + apply at_index_rem; [done|].
      destruct values; [done|]. simpl in *. lia.
    + apply at_index_rem; [done|]. lia.
Qed.

Lemma rem_forward (i n : Z) :
  (0 ≤ i < n)%Z →
  Z.rem (i + 1) n = if decide (i + 1 = n)%Z then 0%Z else (i + 1)%Z.
Proof.
  intros Hi. destruct (decide (i + 1 = n)%Z) as [->|].
  - apply Z.rem_same. lia.
  - apply Z.rem_small. lia.
Qed.

Lemma rem_backward (i n : Z) :
  (0 ≤ i < n)%Z →
  Z.rem (n + i - 1) n = if decide (i = 0)%Z then (n - 1)%Z else (i - 1)%Z.
Proof.
  intros Hi. destruct (decide (i = 0)%Z) as [->|].
  - replace (n + 0 - 1)%Z with (n - 1)%Z by lia. apply Z.rem_small. lia.
  - rewrite Z.rem_mod_nonneg by lia.
    replace (n + i - 1)%Z with (i - 1 + 1 * n)%Z by lia.
    rewrite Z.mod_add by lia. apply Z.mod_small. lia.
Qed.

(** What the plus and the minus keys set from the entry at an index of an
    array without duplicates. *)
Lemma useListInput_at values (i : nat) (v : T) (minus plus : string) :
  NoDup values → values !! i = Some v → minus ≠ plus →
  useListInput (Some v) values true minus plus plus
  = Some (values !! (if decide (S i = length values) then 0 else S i))
  ∧ useListInput (Some v) values true minus plus minus
    = Some (values !! (if decide (i = 0) then length values - 1 else i - 1)).
Proof.
  intros Hvalues Hi Hkeys. pose proof (lookup_lt_Some _ _ _ Hi) as Hlt.
  unfold useListInput, js_rem, at_index. simpl.
  rewrite (indexOf_NoDup _ _ _ Hvalues Hi).
  destruct (decide (Z.of_nat (length values) = 0)%Z); [lia|].
  destruct (decide (minus = minus)); [|done].
  destruct (decide (plus = minus)); [congruence|].
  destruct (decide (plus = plus)); [|done].
  rewrite rem_forward, rem_backward by lia. split; f_equal.
  - destruct (decide (Z.of_nat i + 1 = Z.of_nat (length values))%Z);
      destruct (decide (S i = length values)); try lia; simpl; [done|].
    destruct (decide (0 ≤ Z.of_nat i + 1)%Z); [|lia]. f_equal. lia.
  - destruct (decide (Z.of_nat i = 0)%Z); destruct (decide (i = 0));
      try lia.
    + destruct (decide (0 ≤ Z.of_nat (length values) - 1)%Z); [|lia].
      f_equal. lia.
    + destruct (decide (0 ≤ Z.of_nat i - 1)%Z); [|lia]. f_equal. lia.
Qed.

(** X6. On an array without duplicates, the plus key and then the minus
    key bring back the entry they started from, and so do the minus key
    and then the plus key. *)
Theorem useListInput_plus_and_minus_undo_each_other values (v : T)
    (minus plus : string) :
  NoDup values → v ∈ values → minus ≠ plus →
  (∃ next,
     useListInput (Some v) values true minus plus plus = Some (Some next)
     ∧ useListInput (Some next) values true minus plus minus
       = Some (Some v))
  ∧ (∃ previous,
       useListInput (Some v) values true minus plus minus
       = Some (Some previous)
       ∧ useListInput (Some previous) values true minus plus plus
         = Some (Some v)).
Proof.
  intros Hvalues Hin Hkeys.
  apply list_elem_of_lookup in Hin as [i Hi].
  pose proof (lookup_lt_Some _ _ _ Hi) as Hlt.
  destruct (useListInput_at values i v minus plus Hvalues Hi Hkeys)
    as [Hplus Hminus].
  split.
  - destruct (lookup_lt_is_Some_2 values
                (if decide (S i = length values) then 0 else S i))
      as [next Hnext]; [destruct (decide (S i = length values)); lia|].
    exists next. split; [by rewrite Hplus, Hnext|].
    rewrite (proj2 (useListInput_at values _ next minus plus Hvalues Hnext
                      Hkeys)).
    do 2 f_equal. rewrite <- Hi. f_equal.
    destruct (decide (S i = length values)); simpl; lia.
  - destruct (lookup_lt_is_Some_2 values
                (if decide (i = 0) then length values - 1 else i - 1))
      as [previous Hprevious]; [destruct (decide (i = 0)); lia|].
    exists previous. split; [by rewrite Hminus, Hprevious|].
    rewrite (proj1 (useListInput_at values _ previous minus plus Hvalues
                      Hprevious Hkeys)).
    do 2 f_equal. rewrite <- Hi. f_equal.
    destruct (decide (i = 0)) as [->|]; simpl.
    + destruct (decide (S (length values - 1) = length values)); lia.
    + destruct (decide (S (i - 1) = length values)); lia.
Qed.

(** X7. From a value that the array does not hold, or from undefined, the
    plus key sets the first entry, and the minus key the entry before the
    last one (the only entry of an array of one). *)
Theorem useListInput_from_a_value_not_listed value values
    (minus plus : string) :
  (∀ v, value = Some v → v ∉ values) → values ≠ [] → minus ≠ plus →
  useListInput value values true minus plus plus = Some (head values)
  ∧ useListInput value values true minus plus minus
    = Some (values !! (length values - 2)).
Proof.
  intros Hout Hvalues Hkeys. unfold useListInput, js_rem, at_index. simpl.
  rewrite (indexOf_not_listed _ _ Hout).
  assert (0 < length values) as Hlength.
  { destruct values; [done|]. simpl. lia. }
  destruct (decide (Z.of_nat (length values) = 0)%Z); [lia|].
  destruct (decide (minus = minus)); [|done].
  destruct (decide (plus = minus)); [congruence|].
  destruct (decide (plus = plus)); [|done].
  split; f_equal.
  - rewrite Z.rem_0_l by lia. simpl. by destruct values.
  - destruct (decide (length values = 1)) as [Hone|Hmore].
    + rewrite Hone. simpl. by destruct values.
    + rewrite Z.rem_small by lia.
      destruct (decide (0 ≤ Z.of_nat (length values) + -1 - 1)%Z); [|lia].
      f_equal. lia.
Qed.

End ListInput.

Section MoreMapFacts.
Context {K V : Type} `{EqDecision K}.
Implicit Types (m : list (K * V)) (k : K) (v : V).

Lemma Map_get_set_eq m k v : Map_get (Map_set m k v) k = Some v.
Proof.
  induction m as [|[k' v'] m IH]; simpl.
  - by destruct (decide (k = k)).
  - destruct (decide (k' = k)) as [->|Hne]; simpl.
    + by destruct (decide (k = k)).
    + by destruct (decide (k' = k)).
Qed.

Lemma Map_get_set_ne m k k' v :
  k ≠ k' → Map_get (Map_set m k v) k' = Map_get m k'.
Proof.
  intros Hne. induction m as [|[k0 v0] m IH]; simpl.
  - by destruct (decide (k = k')).
  - destruct (decide (k0 = k)) as [->|Hk0]; simpl.
    + by destruct (decide (k = k')).
    + destruct (decide (k0 = k')); [done|]. apply IH.
Qed.

Lemma Map_get_delete_ne m k k' :
  k ≠ k' → Map_get (Map_delete m k) k' = Map_get m k'.
Proof.
  intros Hne. induction m as [|[k0 v0] m IH]; simpl; [done|].
  destruct (decide (k0 = k)) as [->|Hk0]; simpl.
  - by destruct (decide (k = k')).
  - destruct (decide (k0 = k')); [done|]. apply IH.
Qed.

Lemma Map_new_from (entries m : list (K * V)) :
  let final := foldl (λ m kv, Map_set m kv.1 kv.2) m entries in
  (NoDup m.*1 → NoDup final.*1)
  ∧ ∀ e, e ∈ final → e ∈ m ∨ e ∈ entries.
Proof.
  revert m. induction entries as [|[k v] entries IH]; intros m; simpl.
  - split; [done|]. intros e He. by left.
  - destruct (IH (Map_set m k v)) as [Hkeys Hentries]. split.
    + intros Hm. by apply Hkeys, Map_set_NoDup.
    + intros e He. destruct (Hentries e He) as [Hset|Hrest].
      * apply Map_set_elem in Hset as [->|Hm]; [right; by left|by left].
      * right. by right.
Qed.

Lemma Map_new_NoDup (entries : list (K * V)) : NoDup (Map_new entries).*1.
Proof. apply (Map_new_from entries []). constructor. Qed.

Lemma Map_new_get (entries : list (K * V)) k v :
  Map_get (Map_new entries) k = Some v → (k, v) ∈ entries.
Proof.
  intros Hget%Map_get_Some.
  destruct (proj2 (Map_new_from entries []) _ Hget) as [Hnil|?]; [|done].
  by apply elem_of_nil in Hnil.
Qed.

End MoreMapFacts.

Section SetFacts.
Context {T : Type} `{EqDecision T}.

Lemma Set_of_from (array members : list T) :
  ∃ added,
    foldl (λ members x, if bool_decide (x ∈ members) then members
                        else members ++ [x]) members array
    = members ++ added
    ∧ sublist added array
    ∧ NoDup added
    ∧ (∀ x, x ∈ added → x ∉ members)
    ∧ (∀ x, x ∈ array → x ∈ members ∨ x ∈ added).
Proof.
  revert members. induction array as [|x array IH]; intros members; simpl.
  - exists []. rewrite app_nil_r. split; [done|]. split; [done|].
    split; [constructor|]. split; intros y Hy; by apply elem_of_nil in Hy.
  - destruct (bool_decide (x ∈ members)) eqn:Hx.
    + apply bool_decide_eq_true in Hx.
      destruct (IH members) as (added & -> & Hsub & Hdup & Hnew & Hall).
      exists added. repeat split; try done; [by apply sublist_cons|].
      intros y [->|Hy]%elem_of_cons; [by left | by apply Hall].
    + apply bool_decide_eq_false in Hx.
      destruct (IH (members ++ [x])) as (added & -> & Hsub & Hdup & Hnew & Hall).
      exists (x :: added). rewrite <- app_assoc. simpl.
      repeat split; try done.
      * by apply sublist_skip.
      * apply NoDup_cons. split; [|done]. intros Hin.
        apply (Hnew x Hin), elem_of_app. right. by left.
      * intros y [->|Hy]%elem_of_cons; [done|]. intros Hm.
        apply (Hnew y Hy), elem_of_app. by left.
      * intros y [->|Hy]%elem_of_cons; [right; by left|].
        destruct (Hall y Hy) as [Hm|?]; [|right; by right].
        apply elem_of_app in Hm as [?|Hm]; [by left|].
        apply list_elem_of_singleton in Hm as ->. right. by left.
Qed.

Lemma Set_of_sublist (array : list T) : sublist (Set_of array) array.
Proof.
  unfold Set_of. by destruct (Set_of_from array []) as (added & -> & ? & _).
Qed.

Lemma Set_of_NoDup (array : list T) : NoDup (Set_of array).
Proof.
  unfold Set_of. by destruct (Set_of_from array []) as (added & -> & _ & ? & _).
Qed.

Lemma Set_of_elem (array : list T) (x : T) : x ∈ Set_of array ↔ x ∈ array.
Proof.
  split.
  - intros Hx. eapply elem_of_sublist; [done | apply Set_of_sublist].
  - intros Hx. unfold Set_of.
    destruct (Set_of_from array []) as (added & -> & _ & _ & _ & Hall).
    destruct (Hall x Hx) as [Hnil|?]; [by apply elem_of_nil in Hnil | done].
Qed.

End SetFacts.

Section Form.
Context `{JSNumber} `{Semver}.

Implicit Types (project : Project) (status : Status).
Implicit Types (workspace other : Workspace) (decision : BumpDecision).
Implicit Types (session : Session) (listing : Listing).

(** X8. Once a decision is set for a workspace, its row shows this
    decision, undecided included, and the rows of the other workspaces
    show what they showed. *)
Theorem setDecision_is_what_the_row_shows
    (entries : list (Workspace * BumpDecision)) workspace other decision :
  NoDup entries.*1 →
  default undecided_ (Map_get (setDecision entries workspace decision)
                        workspace) = decision
  ∧ (other ≠ workspace →
     Map_get (setDecision entries workspace decision) other
     = Map_get entries other).
Proof.
  intros Hkeys. unfold setDecision.
  destruct (decide (decision ≠ undecided_)) as [Hset|Hdelete].
  - split; [by rewrite Map_get_set_eq|].
    intros Hother. by apply Map_get_set_ne.
  - assert (decision = undecided_) as ->.
    { by destruct (decide (decision = undecided_)). }
    split.
    + by rewrite (proj2 (Map_get_None _ _) (Map_delete_absent _ _ Hkeys)).
    + intros Hother. by apply Map_get_delete_ne.
Qed.

Lemma Undecided_keypress_sets (entries copy : list (Workspace * BumpDecision))
    workspace (active : bool) (key_name : string) :
  Undecided_keypress entries workspace active key_name = Some copy →
  active = true
  ∧ (key_name = "left" ∨ key_name = "right")
  ∧ ∃ decision, copy = setDecision entries workspace decision.
Proof.
  unfold Undecided_keypress.
  destruct (version (manifest workspace)) as [currentVersion|]; [|done].
  destruct (useListInput _ _ _ _ _ _) as [[decision|]|] eqn:Hinput; try done.
  intros [= <-].
  destruct (proj1 (useListInput_called _ _ _ _ _ _)
              (mk_is_Some _ _ Hinput)) as [Hactive Hkey].
  split; [done|]. split; [done|]. by exists decision.
Qed.

Lemma App_keypress_frame session listing (key_name : string) :
  let after := App_keypress session listing key_name in
  (key_name ≠ "left" → key_name ≠ "right" →
   decisions after = decisions session)
  ∧ (key_name ≠ "up" → key_name ≠ "down" →
     activeKey after = activeKey session).
Proof.
  unfold App_keypress. cbv zeta. simpl.
  generalize (undecidedWorkspaces listing ++ undecidedDependents listing).
  intros rows. split.
  - intros Hleft Hright.
    generalize (decisions session) at 2 3 as current.
    induction rows as [|workspace rows IH]; intros current; simpl; [done|].
    rewrite IH.
    destruct (Undecided_keypress _ _ _ _) as [copy|] eqn:Hrow; [|done].
    apply Undecided_keypress_sets in Hrow as (_ & [?|?] & _); done.
  - intros Hup Hdown. unfold useListInput. simpl.
    destruct (decide (key_name = "up")); [done|].
    by destruct (decide (key_name = "down")).
Qed.

(** X9. A keypress changes one thing at most: the keys other than left and
    right leave the decisions as they are, the keys other than up and down
    leave the active key as it is, and the left and right keys leave the
    decision of every workspace other than the active one as it is. *)
Theorem App_keypress_changes_one_thing session listing (key_name : string) :
  let after := App_keypress session listing key_name in
  (key_name ≠ "left" → key_name ≠ "right" →
   decisions after = decisions session)
  ∧ (key_name ≠ "up" → key_name ≠ "down" →
     activeKey after = activeKey session)
  ∧ (∀ other,
       (∀ key, activeKey session = Some key →
               Map_get (fullListing listing) key ≠ Some other) →
       Map_get (decisions after) other = Map_get (decisions session) other).
Proof.
  cbv zeta. pose proof (App_keypress_frame session listing key_name) as Hframe.
  split; [apply Hframe|]. split; [apply Hframe|]. clear Hframe.
  unfold App_keypress. simpl.
  set (activeWorkspace := match activeKey session with
                          | Some key => Map_get (fullListing listing) key
                          | None => None
                          end).
  generalize (undecidedWorkspaces listing ++ undecidedDependents listing).
  intros rows. intros other Hother.
    assert (∀ current,
              Map_get current other = Map_get (decisions session) other →
              Map_get
                (foldl (λ current workspace,
                          match Undecided_keypress (decisions session)
                                  workspace
                                  (bool_decide
                                     (Some workspace = activeWorkspace))
                                  key_name with
                          | Some copy => copy
                          | None => current
                          end) current rows) other
              = Map_get (decisions session) other) as Hfold;
      [|by apply Hfold].
    induction rows as [|workspace rows IH]; intros current Hcurrent; simpl;
      [done|].
    apply IH.
    destruct (Undecided_keypress _ _ _ _) as [copy|] eqn:Hrow; [|done].
    apply Undecided_keypress_sets in Hrow as (Hactive & _ & decision & ->).
    apply bool_decide_eq_true in Hactive.
    unfold setDecision.
    assert (workspace ≠ other) as Hne.
    { intros ->. unfold activeWorkspace in Hactive.
      destruct (activeKey session) as [key|]; [|done].
      by apply (Hother key). }
    destruct (decide (decision ≠ undecided_));
      [by apply Map_get_set_ne | by apply Map_get_delete_ne].
Qed.

Lemma App_keypress_ignored session listing (key_name : string) :
  key_name ∉ listenedKeys →
  App_keypress session listing key_name = session.
Proof.
  intros Hkey.
  assert (key_name ≠ "up" ∧ key_name ≠ "down" ∧ key_name ≠ "left"
          ∧ key_name ≠ "right") as (Hup & Hdown & Hleft & Hright).
  { unfold listenedKeys in Hkey. rewrite !not_elem_of_cons in Hkey. tauto. }
  destruct (App_keypress_frame session listing key_name)
    as (Hdecisions & Hactive).
  specialize (Hdecisions Hleft Hright). specialize (Hactive Hup Hdown).
  destruct (App_keypress session listing key_name) as [d a].
  destruct session as [d' a']. simpl in *. congruence.
Qed.

Lemma renderForm_loop_renders project status session (keys : list string) :
  (listing ←! App_render project status session;
   renderForm_loop project status session keys)
  = renderForm_loop project status session keys.
Proof.
  destruct keys; simpl; by destruct (App_render project status session).
Qed.

Lemma renderForm_loop_after_return project status session
    (keys rest : list string) :
  renderForm_loop project status session (keys ++ "return" :: rest)
  = renderForm_loop project status session (keys ++ ["return"]).
Proof.
  revert session. induction keys as [|key_name keys IH]; intros session; simpl.
  - done.
  - destruct (App_render project status session) as [|listing]; [done|].
    simpl. destruct (decide (key_name = "return")); [done|]. apply IH.
Qed.

(** X10. The keys pressed after the return key have no effect on what the
    form returns. *)
Theorem renderForm_ignores_keys_after_return project status
    (keys rest : list string) :
  renderForm project status (keys ++ "return" :: rest)
  = renderForm project status (keys ++ ["return"]).
Proof.
  unfold renderForm. destruct (applyDecisions project status []); [done|].
  simpl. apply renderForm_loop_after_return.
Qed.

Lemma renderForm_loop_listened project status session (keys : list string) :
  renderForm_loop project status session keys
  = renderForm_loop project status session
      (filter (λ key_name, key_name ∈ listenedKeys) keys).
Proof.
  revert session. induction keys as [|key_name keys IH]; intros session;
    [done|].
  rewrite filter_cons. destruct (decide (key_name ∈ listenedKeys)) as [_|Hkey].
  - simpl. destruct (App_render project status session) as [|listing];
      [done|]. simpl.
    destruct (decide (key_name = "return")); [done|]. apply IH.
  - rewrite <- IH. rewrite <- (renderForm_loop_renders _ _ _ keys). simpl.
    destruct (App_render project status session) as [|listing]; [done|].
    simpl. destruct (decide (key_name = "return")) as [->|_].
    + exfalso. apply Hkey. unfold listenedKeys. set_solver.
    + by rewrite App_keypress_ignored.
Qed.

(** X11. The keys other than up, down, left, right and return are ignored
    wherever they are pressed: the form returns what it returns without
    them. *)
Theorem renderForm_ignores_other_keys project status (keys : list string) :
  renderForm project status keys
  = renderForm project status
      (filter (λ key_name, key_name ∈ listenedKeys) keys).
Proof.
  unfold renderForm. destruct (applyDecisions project status []); [done|].
  simpl. apply renderForm_loop_listened.
Qed.

End Form.

Section Rows.
Context `{JSNumber}.

Implicit Types (project : Project) (status : Status).
Implicit Types (workspace other : Workspace) (decision : BumpDecision).
Implicit Types (listing : Listing).

Lemma applyDecisions_inv project status
    (entries : list (Workspace * BumpDecision)) listing :
  applyDecisions project status entries = Return listing →
  ∃ pairs,
    fetchUndecidedDependentWorkspaces
      (foldl applyDecisions_step (decided status, declined status) entries).1
      (foldl applyDecisions_step (decided status, declined status) entries).2
      project (Map_keys entries) = Return pairs
    ∧ undecidedWorkspaces listing = undecided status
    ∧ undecidedDependents listing = Set_of pairs.*1
    ∧ fullListing listing
      = Map_new
          (((λ workspace,
               ("undecidedWorkspace:"
                  +:+ locatorHash (anchoredLocator workspace), workspace))
              <$> undecided status)
           ++ ((λ workspace,
                  ("undecidedDependent:"
                     +:+ locatorHash (anchoredLocator workspace), workspace))
                 <$> Set_of pairs.*1)).
Proof.
  unfold applyDecisions.
  destruct (foldl applyDecisions_step _ entries) as [D L]. simpl.
  destruct (fetchUndecidedDependentWorkspaces D L project (Map_keys entries))
    as [|pairs]; [done|]. simpl.
  intros [= <-]. by exists pairs.
Qed.

(** X12. The listing of a render holds the undecided workspaces of the
    status, whatever the decisions; its dependents are workspaces of the
    project, public and with a version, each listed once; its keys are
    distinct, and every key stands for a row that is shown. *)
Theorem applyDecisions_listing project status
    (entries : list (Workspace * BumpDecision)) listing :
  applyDecisions project status entries = Return listing →
  undecidedWorkspaces listing = undecided status
  ∧ NoDup (undecidedDependents listing)
  ∧ (∀ workspace,
       workspace ∈ undecidedDependents listing →
       workspace ∈ workspaces project
       ∧ private (manifest workspace) = false
       ∧ version (manifest workspace) ≠ None)
  ∧ NoDup (Map_keys (fullListing listing))
  ∧ (∀ key workspace,
       Map_get (fullListing listing) key = Some workspace →
       workspace ∈ undecidedWorkspaces listing ++ undecidedDependents listing).
Proof.
  intros (pairs & Hrun & -> & -> & ->)%applyDecisions_inv.
  split; [done|]. split; [apply Set_of_NoDup|]. split; [|split].
  - intros workspace Hin. apply (proj1 (Set_of_elem _ _)) in Hin.
    apply list_elem_of_fmap in Hin as ([w d] & -> & Hin).
    destruct (loop_origin _ _ _ _ _ _ Hrun _ Hin) as (Hproject & Hskip & _).
    simpl in *. split; [done|]. unfold skipped in Hskip.
    apply orb_false_iff in Hskip as [Hskip Hversion].
    apply orb_false_iff in Hskip as [_ Hprivate].
    split; [done|]. by apply bool_decide_eq_false in Hversion.
  - apply Map_new_NoDup.
  - intros key workspace Hget%Map_new_get.
    apply elem_of_app in Hget as [Hget|Hget];
      apply list_elem_of_fmap in Hget as (w & [= _ ->] & Hw);
      apply elem_of_app; [by left | by right].
Qed.

Lemma rows_render (rows : list Workspace) :
  (∀ workspace, workspace ∈ rows → version (manifest workspace) ≠ None) →
  ∃ text,
    foldr (λ workspace rest, _ ←! Undecided_render workspace; rest)
      (Return EmptyString) rows = Return text.
Proof.
  induction rows as [|workspace rows IH]; intros Hrows; simpl; [by eexists|].
  unfold Undecided_render at 1.
  destruct (version (manifest workspace)) eqn:Hversion.
  - simpl. apply IH. intros w Hw. apply Hrows. by right.
  - exfalso. apply (Hrows workspace); [by left | done].
Qed.

(** X13. On the status that the classification gives, the assertion of the
    rows on the version never fails: a render throws only when the
    propagation does, and gives the listing of the decisions otherwise. *)
Theorem App_render_of_a_classification project
    (workspaces : list Workspace) (base : Workspace → option Manifest)
    (session : Session) :
  App_render project (fetchWorkspacesStatus workspaces base) session
  = applyDecisions project (fetchWorkspacesStatus workspaces base)
      (decisions session).
Proof.
  unfold App_render.
  destruct (applyDecisions _ _ _) as [|listing] eqn:Hlisting; [done|]. simpl.
  destruct (rows_render (undecidedWorkspaces listing
                         ++ undecidedDependents listing)) as [text ->];
    [|done].
  apply applyDecisions_inv in Hlisting as (pairs & Hrun & -> & -> & _).
  intros workspace [Hin|Hin]%elem_of_app.
  - by eapply fetchWorkspacesStatus_undecided_versioned.
  - apply (proj1 (Set_of_elem _ _)) in Hin.
    apply list_elem_of_fmap in Hin as ([w d] & -> & Hin).
    destruct (loop_origin _ _ _ _ _ _ Hrun _ Hin) as (_ & Hskip & _).
    simpl in *. unfold skipped in Hskip.
    apply orb_false_iff in Hskip as [_ Hversion].
    by apply bool_decide_eq_false in Hversion.
Qed.





End Rows.

Section Commands.
Context `{JSNumber} `{Semver}.

Implicit Types (project : Project) (owner : string → Workspace).
Implicit Types (files keys : list string) (base : Workspace → option Manifest).

(** X15. When the form is not to be shown, the keys are not read: the
    command returns or throws the same whatever the keys, and when it
    returns it returns undefined and has run no apply action. With no
    changed file it returns at once, whatever the project. *)
Theorem executeInteractive_without_the_form project owner files base keys :
  (¬ formShown project owner files base →
   executeInteractive project owner files base keys
   = executeInteractive project owner files base []
   ∧ ∀ code effects,
       executeInteractive project owner files base keys
       = Return (code, effects) →
       code = None ∧ effects = [])
  ∧ (files = [] →
     executeInteractive project owner files base keys = Return (None, [])).
Proof.
  split; [|by intros ->].
  intros Hhidden. unfold formShown in Hhidden. cbv zeta in Hhidden.
  unfold executeInteractive.
  destruct (decide (length (Set_of (owner <$> files)) = 0)) as [|Hfiles];
    [split; [done | by intros code effects [= <- <-]]|].
  assert (Set_of (owner <$> files) ≠ []) as Hchanged.
  { intros Hnil. rewrite Hnil in Hfiles. done. }
  destruct (decide (length (undecided _) = 0)) as [Hnone|Hsome].
  - destruct (fetchUndecidedDependentWorkspaces _ _ _ _)
      as [|[|pair pairs]] eqn:Hrun; simpl.
    + done.
    + split; [done | by intros code effects [= <- <-]].
    + exfalso. apply Hhidden. split; [done|]. right. by exists pair, pairs.
  - exfalso. apply Hhidden. split; [done|]. left. intros Hnil.
    rewrite Hnil in Hsome. done.
Qed.

Lemma reportedErrors_app (report more : list Effect) :
  reportedErrors (report ++ more)
  = reportedErrors report ++ reportedErrors more.
Proof. apply omap_app. Qed.

Lemma reportedErrors_infos {A} (f : A → Message) (l : list A) :
  reportedErrors (ReportInfo ∘ f <$> l) = [].
Proof. induction l; simpl; auto. Qed.

Lemma reportedErrors_errors {A} (f : A → Message) (l : list A) :
  reportedErrors (ReportError ∘ f <$> l) = f <$> l.
Proof.
  induction l as [|a l IH]; [done|].
  change (f a :: reportedErrors (ReportError ∘ f <$> l) = f a :: (f <$> l)).
  by rewrite IH.
Qed.

Lemma executeStandard_dependents_errors files (hasDiffErrors : bool)
    (pairs : list (Workspace * Workspace)) (report : list Effect)
    (hasDepsErrors : bool) :
  reportedErrors
    (foldl (executeStandard_dependent files hasDiffErrors)
       (report, hasDepsErrors) pairs).1
  = reportedErrors report
    ++ ((λ pair, NoStrategyButDepends pair.1 pair.2) <$> pairs).
Proof.
  revert report hasDepsErrors.
  induction pairs as [|[workspace dependency] pairs IH];
    intros report hasDepsErrors; simpl.
  - by rewrite app_nil_r.
  - rewrite IH, reportedErrors_app. simpl.
    rewrite <- app_assoc. f_equal.
    destruct (negb hasDepsErrors && _); [|done].
    rewrite reportedErrors_app. simpl. by rewrite app_nil_r.
Qed.

(** X16. When the propagation returns its pairs, the lines that the report
    mode reports as errors are one line for each undecided workspace, in
    the order of the status, followed by one line for each pair, in the
    order in which the pairs were emitted. *)
Theorem executeStandard_reports_each_once project owner files
    (baseHash baseMessage : string) base
    (pairs : list (Workspace * Workspace)) :
  let status := fetchWorkspacesStatus (Set_of (owner <$> files)) base in
  fetchUndecidedDependentWorkspaces (decided status) (declined status)
    project [] = Return pairs →
  ∃ code report,
    executeStandard project owner files baseHash baseMessage base
    = Return (code, report)
    ∧ reportedErrors report
      = (NoStrategy <$> undecided status)
        ++ ((λ pair, NoStrategyButDepends pair.1 pair.2) <$> pairs).
Proof.
  intros status Hpairs. unfold executeStandard. fold status.
  set (started := [ReportInfo (StartedAfter _ _)]).
  set (listed := if decide (0 < length files) then _ else started).
  assert (reportedErrors listed = []) as Hlisted.
  { unfold listed. destruct (decide (0 < length files)); [|done].
    by rewrite !reportedErrors_app, (reportedErrors_infos File). }
  set (diagnosed := if decide (0 < length (undecided status)) then _ else _).
  assert (reportedErrors diagnosed.1 = NoStrategy <$> undecided status)
    as Hdiagnosed.
  { unfold diagnosed. destruct (decide (0 < length (undecided status)))
      as [Hsome|Hnone]; simpl.
    - rewrite reportedErrors_app, (reportedErrors_errors NoStrategy).
      destruct (bool_decide (0 < length files)); [|by rewrite Hlisted].
      rewrite reportedErrors_app, Hlisted. done.
    - rewrite Hlisted. destruct (undecided status); [done|].
      simpl in Hnone. lia. }
  destruct diagnosed as [report hasDiffErrors]. simpl in *.
  rewrite Hpairs. simpl.
  pose proof (executeStandard_dependents_errors files hasDiffErrors pairs
                report false) as Hfold.
  destruct (foldl _ _ pairs) as [report' hasDepsErrors]. simpl in Hfold.
  eexists _, _. split; [reflexivity|].
  destruct (hasDiffErrors || hasDepsErrors).
  - rewrite reportedErrors_app. simpl. by rewrite app_nil_r, Hfold, Hdiagnosed.
  - by rewrite Hfold, Hdiagnosed.
Qed.


End Commands.

Section Git.
Context `{Host}.

Lemma split_newlines_not_nil (s : string) : split_newlines s ≠ [].
Proof.
  destruct s as [|c rest]; simpl; [done|].
  destruct (decide (c = CR)).
  - destruct rest as [|c' rest']; [done|]. by destruct (decide (c' = LF)).
  - destruct (decide (c = LF)); [done|]. by destruct (split_newlines rest).
Qed.

(** The pieces of a text that a line feed, alone or after a carriage
    return, cuts in two. *)
Lemma split_newlines_at_line_end (a b : string) (crlf : bool) :
  CR ∉ list_ascii_of_string a →
  split_newlines
    (a +:+ (if crlf then String CR (String LF b) else String LF b))
  = split_newlines a ++ split_newlines b.
Proof.
  induction a as [|c a IH]; intros Ha.
  - by destruct crlf.
  - simpl in Ha. apply not_elem_of_cons in Ha as [Hc Ha].
    specialize (IH Ha). simpl.
    destruct (decide (c = CR)); [done|].
    destruct (decide (c = LF)); [by rewrite IH|].
    rewrite IH.
    pose proof (split_newlines_not_nil a).
    by destruct (split_newlines a).
Qed.

(** X18. The output of git is read line by line, whichever the line end:
    the files of an output made of a text without carriage return, of a
    line feed alone or after a carriage return, and of another text, are
    the files of the first text followed by the files of the second; the
    empty output has no file. *)
Theorem fetchChangedFiles_reads_lines (root a b : string) (crlf : bool) :
  CR ∉ list_ascii_of_string a →
  fetchChangedFiles_files root
    (a +:+ (if crlf then String CR (String LF b) else String LF b))
  = fetchChangedFiles_files root a ++ fetchChangedFiles_files root b
  ∧ fetchChangedFiles_files root EmptyString = [].
Proof.
  intros Ha. split; [|done]. unfold fetchChangedFiles_files.
  by rewrite split_newlines_at_line_end, filter_app, fmap_app.
Qed.

(** X19. When the sort of the language gives a permutation of its array,
    the changed files are given without duplicates, in the order in which
    the sort leaves them, and they are the lines of the two outputs of git
    that are not empty, each resolved from the root. *)
Theorem fetchChangedFiles_is_a_sorted_set (root base : string)
    (files : list string) :
  (∀ array, Array_sort array ≡ₚ array) →
  fetchChangedFiles root base = Return files →
  ∃ localStdout untrackedStdout,
    git_strict ["diff"; "--name-only"; base] root = Return localStdout
    ∧ git_strict ["ls-files"; "--others"; "--exclude-standard"] root
      = Return untrackedStdout
    ∧ NoDup files
    ∧ sublist files
        (Array_sort (fetchChangedFiles_files root localStdout
                     ++ fetchChangedFiles_files root untrackedStdout))
    ∧ ∀ file,
        file ∈ files
        ↔ ∃ line,
            (line ∈ split_newlines localStdout
             ∨ line ∈ split_newlines untrackedStdout)
            ∧ line ≠ EmptyString
            ∧ file = ppath_resolve root (npath_toPortablePath line).
Proof.
  intros Hsort. unfold fetchChangedFiles.
  destruct (git_strict ["diff"; "--name-only"; base] root)
    as [|localStdout]; [done|]. simpl.
  destruct (git_strict ["ls-files"; "--others"; "--exclude-standard"] root)
    as [|untrackedStdout]; [done|]. simpl.
  intros [= <-]. exists localStdout, untrackedStdout.
  split; [done|]. split; [done|]. split; [apply Set_of_NoDup|].
  split; [apply Set_of_sublist|].
  intros file. rewrite Set_of_elem, (Hsort _), elem_of_app.
  unfold fetchChangedFiles_files. rewrite !list_elem_of_fmap.
  assert (∀ line : string, 0 < String.length line ↔ line ≠ EmptyString)
    as Hempty.
  { intros [|c line]; simpl; split; try done; try lia. }
  split.
  - intros [(line & -> & Hline)|(line & -> & Hline)];
      apply list_elem_of_filter in Hline as [Hlength Hline];
      exists line; rewrite <- Hempty; auto.
  - intros (line & [Hline|Hline] & Hlength & ->); [left|right];
      exists line; (split; [done|]);
      apply list_elem_of_filter; by rewrite Hempty.
Qed.

Lemma iter_dirname_succ (k : nat) (cwd : string) :
  Nat.iter k ppath_dirname (ppath_dirname cwd)
  = Nat.iter (S k) ppath_dirname cwd.
Proof. by rewrite Nat.iter_succ_r. Qed.

(** X20. [fetchRoot] gives the nearest directory that holds a [.git]
    entry, going from the initial directory to its parent, and so on:
    when the directory reached in [k] steps holds one and none reached in
    fewer steps does, it is returned, in [k + 1] turns of the loop; when
    the directory reached in [k] steps is its own parent and none reached
    in [k] steps or fewer holds one, the command throws. *)
Theorem fetchRoot_finds_the_nearest_repository (initialCwd : string)
    (k turns : nat) :
  let ancestor j := Nat.iter j ppath_dirname initialCwd in
  k < turns →
  (∀ j, j < k → existsPromise (ppath_join (ancestor j) ".git") = false) →
  (existsPromise (ppath_join (ancestor k) ".git") = true →
   fetchRoot turns initialCwd = Some (Return (ancestor k)))
  ∧ (existsPromise (ppath_join (ancestor k) ".git") = false →
     ppath_dirname (ancestor k) = ancestor k →
     fetchRoot turns initialCwd
     = Some (Throw
               "This command can only be run from within a Git repository")).
Proof.
  cbv zeta. unfold fetchRoot.
  revert initialCwd turns. induction k as [|k IH]; intros initialCwd turns.
  - intros Hturns _. destruct turns as [|turns]; [lia|]. simpl.
    split.
    + by intros ->.
    + intros -> Hparent.
      by rewrite (bool_decide_eq_false_2 _ (λ Hne, Hne Hparent)).
  - intros Hturns Hnone. destruct turns as [|turns]; [lia|].
    cbn [fetchRoot_loop]. cbv zeta.
    pose proof (Hnone 0 ltac:(lia)) as Hhere. simpl in Hhere.
    rewrite Hhere. simpl.
    destruct (decide (ppath_dirname initialCwd = initialCwd)) as [Hparent|Hup].
    + assert (∀ j, Nat.iter j ppath_dirname initialCwd = initialCwd)
        as Hfixed.
      { intros j. induction j as [|j IHj]; [done|]. simpl. by rewrite IHj. }
      rewrite (bool_decide_eq_false_2 _ (λ Hne, Hne Hparent)).
      rewrite (Hfixed k), Hparent.
      split; [|done]. intros Hgit. congruence.
    + rewrite (bool_decide_eq_true_2 _ Hup).
      specialize (IH (ppath_dirname initialCwd) turns ltac:(lia)).
      rewrite !iter_dirname_succ in IH. simpl in IH. apply IH.
      intros j Hj. rewrite iter_dirname_succ. apply (Hnone (S j)). lia.
Qed.

End Git.

Section Entries.
Context `{JSNumber}.

(** X21. A workspace with a version whose nonce has changed is classified
    by the target of its decision record alone: it is decided when
    [nextVersion.semver] is a string, whatever the version field holds,
    and declined when it is not. *)
Theorem changed_workspace_is_classified_by_its_target
    (workspace : Workspace) (base : Workspace → option Manifest) :
  version (manifest workspace) ≠ None →
  getNonce (manifest workspace) ≠ fetchPreviousNonce workspace base →
  let status := fetchWorkspacesStatus [workspace] base in
  let target :=
    prop (assoc (raw (manifest workspace)) "nextVersion") "semver" in
  ((∃ s, target = VString s) →
   status = {| decided := [workspace]; undecided := []; declined := [] |})
  ∧ ((∀ s, target ≠ VString s) →
     status = {| decided := []; undecided := []; declined := [workspace] |}).
Proof.
  intros Hversion Hchanged. cbv zeta.
  destruct (classification_trichotomy workspace base Hversion)
    as [[Hsame _]|[(_ & Hreleased & Hstatus)|(_ & Hreleased & Hstatus)]];
    [done| |]; rewrite Hstatus; split; try done.
  - intros Htarget. exfalso.
    apply willBeReleased_target_present in Hreleased as [s Hs].
    by apply (Htarget s).
  - intros Htarget%willBeReleased_target_present. congruence.
Qed.

(** X22. A decision other than undecided for a workspace that has none is
    entered after the entries the decisions hold; for a workspace that has
    one it replaces the decision and leaves the workspaces in their order;
    and recording undecided only takes an entry out. *)
Theorem setDecision_keeps_the_order_of_entry
    (entries : list (Workspace * BumpDecision)) (workspace : Workspace)
    (decision : BumpDecision) :
  (decision ≠ undecided_ →
   Map_get entries workspace = None →
   setDecision entries workspace decision
   = entries ++ [(workspace, decision)])
  ∧ (decision ≠ undecided_ →
     Map_get entries workspace ≠ None →
     Map_keys (setDecision entries workspace decision) = Map_keys entries)
  ∧ sublist (setDecision entries workspace undecided_) entries.
Proof.
  split; [apply setDecision_new_entry|].
  split; [apply setDecision_changed_entry|].
  unfold setDecision. destruct (decide (undecided_ ≠ undecided_)); [done|].
  apply Map_delete_sublist.
Qed.

End Entries.

(** * The properties on the sample project *)

#[local] Existing Instance integer_JSNumber.
#[local] Existing Instance hyphen_Semver.

Ltac by_evaluation := vm_compute; reflexivity.

Ltac decided_false :=
  let Hp := fresh in intros Hp; vm_compute in Hp; discriminate Hp.

Lemma sample_formShown :
  formShown sample_project sample_owner sample_files sample_base.
Proof.
  split.
  - decided_false.
  - left. decided_false.
Defined.

Lemma sample_unique_locators : unique_locators [sample_A; sample_C].
Proof.
  intros a b Ha Hb Hhash.
  apply elem_of_cons in Ha as [->|Ha];
    [|apply list_elem_of_singleton in Ha as ->];
    (apply elem_of_cons in Hb as [->|Hb];
       [|apply list_elem_of_singleton in Hb as ->]);
    first [reflexivity | vm_compute in Hhash; discriminate Hhash].
Defined.

Lemma getNonce_normalizes_to_string_witness :
  getNonce (manifest sample_numeric)
  = fetchPreviousNonce sample_numeric (λ _, Some sample_textual)
  ∧ fetchWorkspacesStatus [sample_numeric] (λ _, Some sample_textual)
    = {| decided := []; undecided := [sample_numeric]; declined := [] |}.
Proof.
  apply (proj2 getNonce_normalizes_to_string sample_numeric
           (λ _, Some sample_textual) sample_textual 42%Z).
  - discriminate.
  - reflexivity.
  - left. split; reflexivity.
Defined.

(** C1. A workspace whose nonce has changed and whose decision record
    carries a target version equal to the version field, which the
    specification classifies as declined, is classified as decided. *)
Theorem equal_target_is_classified_decided :
  let m := manifest sample_declined in
  version m = Some "1.0.0"
  ∧ getNonce m ≠ fetchPreviousNonce sample_declined sample_base
  ∧ prop (assoc (raw m) "nextVersion") "semver" = VString "1.0.0"
  ∧ assoc (raw m) "version" = VString "1.0.0"
  ∧ willBeReleased m = true
  ∧ fetchWorkspacesStatus [sample_declined] sample_base
    = {| decided := [sample_declined]; undecided := []; declined := [] |}.
Proof. repeat split; try reflexivity. discriminate. Qed.

(** The pairs emitted for a set of decided workspaces are not all emitted
    for a larger one: B, flagged as a dependent of A, is passed over once
    it is decided itself. *)
Lemma propagation_not_monotone :
  [sample_A] ⊆ [sample_A; sample_B]
  ∧ fetchUndecidedDependentWorkspaces [sample_A] [] sample_project []
    = Return [(sample_B, sample_A)]
  ∧ fetchUndecidedDependentWorkspaces [sample_A; sample_B] [] sample_project []
    = Return [(sample_C, sample_B)]
  ∧ ¬ [(sample_B, sample_A)] ⊆ [(sample_C, sample_B)].
Proof.
  split; [|split; [|split]].
  - intros w Hw. apply list_elem_of_singleton in Hw as ->. by left.
  - by_evaluation.
  - by_evaluation.
  - intros Hsub. specialize (Hsub (sample_B, sample_A)).
    assert ((sample_B, sample_A) ∈ [(sample_C, sample_B)]) as Hin.
    { apply Hsub. by left. }
    apply list_elem_of_singleton in Hin. vm_compute in Hin. discriminate Hin.
Qed.

Lemma propagation_monotone_for_the_undecided_witness :
  ∃ pairs',
    fetchUndecidedDependentWorkspaces [sample_A; sample_C] [] sample_project []
    = Return pairs'
    ∧ ∀ workspace dependency,
        (workspace, dependency) ∈ [(sample_B, sample_A)] →
        workspace ∈ []
        ∨ (∀ d, d ∈ [sample_A; sample_C] →
                locatorHash (anchoredLocator d)
                ≠ locatorHash (anchoredLocator workspace)) →
        (workspace, dependency) ∈ pairs'.
Proof.
  apply (propagation_monotone_for_the_undecided sample_project
           [sample_A] [sample_A; sample_C] [] [] [(sample_B, sample_A)]).
  - intros w Hw. apply list_elem_of_singleton in Hw as ->. by left.
  - exact sample_unique_locators.
  - by_evaluation.
Defined.

Lemma propagation_dependents_are_public_and_versioned_witness :
  private (manifest sample_B) = false ∧ version (manifest sample_B) ≠ None.
Proof.
  apply (propagation_dependents_are_public_and_versioned sample_project
           [sample_A] [] [] [(sample_B, sample_A)] eq_refl sample_B sample_A).
  by left.
Defined.

(** C, two hops from A, is not emitted when A alone is decided. *)
Lemma propagation_is_a_single_hop_witness :
  sample_C ∉ [(sample_B, sample_A)].*1.
Proof.
  apply (proj2 (propagation_is_a_single_hop sample_project
                  [sample_A] [] [] [(sample_B, sample_A)] eq_refl)).
  intros ident descriptor resolution d Hdescriptor Hresolution Hd.
  apply list_elem_of_singleton in Hd as ->.
  apply list_elem_of_singleton in Hdescriptor. injection Hdescriptor as _ ->.
  vm_compute in Hresolution. injection Hresolution as <-.
  decided_false.
Defined.

Lemma strategies_by_version_and_cycling_witness :
  strategies "1.0.0-alpha.1" = [undecided_; decline; prerelease; major]
  ∧ strategies "1.0.0"
    = [undecided_; decline; patch; minor; major; prerelease].
Proof.
  split.
  - apply (proj1 (strategies_by_version_and_cycling "1.0.0-alpha.1")).
    discriminate.
  - apply (proj1 (proj2 (strategies_by_version_and_cycling "1.0.0"))).
    reflexivity.
Defined.

Lemma decisions_never_hold_undecided_witness :
  sparse [(sample_B, decline); (sample_A, patch)].
Proof.
  apply (proj1 (proj2 decisions_never_hold_undecided) sample_project
           sample_status sample_keys_B_first).
  by_evaluation.
Defined.

(** The apply actions are not run in the order of the rows: with A and B
    listed in this order, B declined first and A set to patch next, the
    action of B is run before that of A; with the same decisions entered
    in the other order, the action of A is run first. *)
Lemma apply_actions_not_in_declaration_order :
  let run := executeInteractive sample_project sample_owner sample_files
               sample_base in
  let effects := [CliRun ["/repo/packages/b"; "version"; "decline"; "--deferred"];
                  CliRun ["/repo/packages/a"; "version"; "patch"; "--deferred"]] in
  fetchWorkspacesStatus (Set_of (sample_owner <$> sample_files)) sample_base
  = sample_status
  ∧ applyDecisions sample_project sample_status
      [(sample_B, decline); (sample_A, patch)]
    = Return {| undecidedWorkspaces := [sample_A; sample_B];
                undecidedDependents := [sample_B];
                fullListing :=
                  [("undecidedWorkspace:locator:a", sample_A);
                   ("undecidedWorkspace:locator:b", sample_B);
                   ("undecidedDependent:locator:b", sample_B)] |}
  ∧ run sample_keys_B_first = Return (None, effects)
  ∧ run sample_keys_A_first = Return (None, reverse effects)
  ∧ ¬ inDeclarationOrder [sample_A; sample_B; sample_B] effects.
Proof.
  split; [by_evaluation|]. split; [by_evaluation|].
  split; [by_evaluation|]. split; [by_evaluation|].
  unfold inDeclarationOrder. vm_compute. intros Hsub.
  repeat match goal with
         | Hs : sublist _ _ |- _ => inversion Hs; clear Hs; subst
         end.
Qed.

Lemma apply_actions_follow_the_decisions_witness :
  executeInteractive sample_project sample_owner sample_files sample_base
    sample_keys_B_first
  = Return (None, applyAction <$> [(sample_B, decline); (sample_A, patch)])
  ∧ NoDup [(sample_B, decline); (sample_A, patch)].*1
  ∧ (∀ workspace,
       (workspace, undecided_) ∉ [(sample_B, decline); (sample_A, patch)]).
Proof.
  apply (apply_actions_follow_the_decisions sample_project sample_owner
           sample_files sample_base sample_keys_B_first
           [(sample_B, decline); (sample_A, patch)] sample_formShown).
  by_evaluation.
Defined.

Lemma aborted_session_applies_nothing_witness :
  executeInteractive sample_project sample_owner sample_files sample_base
    sample_keys_unconfirmed
  = Return (Some 1%Z, []).
Proof.
  apply (proj1 (aborted_session_applies_nothing sample_project sample_owner
                  sample_files sample_base sample_keys_unconfirmed)
           sample_formShown).
  by_evaluation.
Defined.

Lemma report_mode_fails_on_what_is_outstanding_witness :
  ∃ report,
    executeStandard sample_project sample_owner sample_files
      "0a1b2c3d4e5f" "previous release" sample_base
    = Return (exitCode report, report)
    ∧ (exitCode report ≠ 0%Z
       ↔ undecided (fetchWorkspacesStatus
                      (Set_of (sample_owner <$> sample_files)) sample_base)
         ≠ []
         ∨ @nil (Workspace * Workspace) ≠ [])
    ∧ ∀ args, CliRun args ∉ report.
Proof.
  apply (report_mode_fails_on_what_is_outstanding sample_project sample_owner
           sample_files "0a1b2c3d4e5f" "previous release" sample_base []).
  by_evaluation.
Defined.

(** * The further properties on the sample project *)

#[local] Existing Instance sample_Host.

Ltac by_decision :=
  match goal with
  | |- ?P => apply (bool_decide_unpack P); vm_compute; exact I
  end.

Lemma sample_registered (workspace : Workspace) :
  workspace ∈ workspaces sample_project →
  registered sample_project workspace.
Proof.
  intros Hw ident descriptor Hd.
  apply elem_of_cons in Hw as [->|Hw];
    [|apply elem_of_cons in Hw as [->|Hw];
      [|apply list_elem_of_singleton in Hw as ->]].
  - by apply elem_of_nil in Hd.
  - apply list_elem_of_singleton in Hd. injection Hd as _ ->.
    exists "locator:a". split; [by_evaluation | by eexists].
  - apply list_elem_of_singleton in Hd. injection Hd as _ ->.
    exists "locator:b". split; [by_evaluation | by eexists].
Defined.

Lemma sample_visited_B : visited [sample_A] [] [] sample_B.
Proof.
  split; [|split; [reflexivity | discriminate]].
  right. intros other Hother.
  apply list_elem_of_singleton in Hother as ->. decided_false.
Defined.


Lemma propagation_emits_every_direct_dependent_witness :
  ∃ emitted,
    (sample_B, emitted) ∈ [(sample_B, sample_A)]
    ∧ emitted ∈ [sample_A]
    ∧ locatorHash (anchoredLocator emitted)
      = locatorHash (anchoredLocator sample_A).
Proof.
  apply (propagation_emits_every_direct_dependent sample_project
           [sample_A] [] [] [(sample_B, sample_A)] sample_B sample_A
           "ident:a" {| descriptorHash := "descriptor:a" |}).
  - by_evaluation.
  - by_decision.
  - exact sample_visited_B.
  - by_decision.
  - by_decision.
  - by_evaluation.
Defined.

Lemma propagation_returns_iff_registered_witness :
  ∃ pairs,
    fetchUndecidedDependentWorkspaces [sample_A] [] sample_project []
    = Return pairs.
Proof.
  apply (proj2 (propagation_returns_iff_registered sample_project
                  [sample_A] [] [])).
  intros workspace Hw _. by apply sample_registered.
Defined.

Lemma propagation_dependents_are_undecided_or_included_witness :
  sample_B ∈ []
  ∨ ∀ other, other ∈ [sample_A] ++ [] →
             locatorHash (anchoredLocator other)
             ≠ locatorHash (anchoredLocator sample_B).
Proof.
  apply (propagation_dependents_are_undecided_or_included sample_project
           [sample_A] [] [] [(sample_B, sample_A)] sample_B sample_A).
  - by_evaluation.
  - by_decision.
Defined.

Lemma useListInput_sets_an_entry_witness :
  ∃ v, Some prerelease = Some v
       ∧ v ∈ [undecided_; decline; prerelease; major].
Proof.
  assert (useListInput (Some decline)
            [undecided_; decline; prerelease; major] true "left" "right"
            "right" = Some (Some prerelease)) as Hset by by_evaluation.
  apply (proj2 (proj2 (useListInput_sets_an_entry (Some decline)
                         [undecided_; decline; prerelease; major] true
                         "left" "right" "right")
                  (Some prerelease) Hset)).
  discriminate.
Defined.

Lemma useListInput_plus_and_minus_undo_each_other_witness :
  (∃ next,
     useListInput (Some major) [undecided_; decline; prerelease; major] true
       "left" "right" "right" = Some (Some next)
     ∧ useListInput (Some next) [undecided_; decline; prerelease; major] true
         "left" "right" "left" = Some (Some major))
  ∧ (∃ previous,
       useListInput (Some major) [undecided_; decline; prerelease; major]
         true "left" "right" "left" = Some (Some previous)
       ∧ useListInput (Some previous)
           [undecided_; decline; prerelease; major] true "left" "right"
           "right" = Some (Some major)).
Proof.
  apply (useListInput_plus_and_minus_undo_each_other
           [undecided_; decline; prerelease; major] major "left" "right").
  - by_decision.
  - by_decision.
  - discriminate.
Defined.

Lemma useListInput_from_a_value_not_listed_witness :
  useListInput (Some "undecidedDependent:locator:c")
    ["undecidedWorkspace:locator:a"; "undecidedWorkspace:locator:b";
     "undecidedDependent:locator:b"] true "up" "down" "down"
  = Some (head ["undecidedWorkspace:locator:a"; "undecidedWorkspace:locator:b";
                "undecidedDependent:locator:b"])
  ∧ useListInput (Some "undecidedDependent:locator:c")
      ["undecidedWorkspace:locator:a"; "undecidedWorkspace:locator:b";
       "undecidedDependent:locator:b"] true "up" "down" "up"
    = Some (["undecidedWorkspace:locator:a"; "undecidedWorkspace:locator:b";
             "undecidedDependent:locator:b"] !! (3 - 2)).
Proof.
  apply (useListInput_from_a_value_not_listed
           (Some "undecidedDependent:locator:c")
           ["undecidedWorkspace:locator:a"; "undecidedWorkspace:locator:b";
            "undecidedDependent:locator:b"] "up" "down").
  - intros v [= <-]. by_decision.
  - discriminate.
  - discriminate.
Defined.

Lemma setDecision_is_what_the_row_shows_witness :
  default undecided_
    (Map_get (setDecision [(sample_A, patch)] sample_A undecided_) sample_A)
  = undecided_
  ∧ (sample_B ≠ sample_A →
     Map_get (setDecision [(sample_A, patch)] sample_A undecided_) sample_B
     = Map_get [(sample_A, patch)] sample_B).
Proof.
  apply (setDecision_is_what_the_row_shows [(sample_A, patch)] sample_A
           sample_B undecided_).
  by_decision.
Defined.

Lemma App_keypress_changes_one_thing_witness :
  decisions (App_keypress
               {| decisions := [(sample_A, patch)];
                  activeKey := Some "undecidedWorkspace:locator:a" |}
               sample_listing_after "down")
  = [(sample_A, patch)].
Proof.
  apply (proj1 (App_keypress_changes_one_thing
                  {| decisions := [(sample_A, patch)];
                     activeKey := Some "undecidedWorkspace:locator:a" |}
                  sample_listing_after "down")); discriminate.
Defined.

Lemma applyDecisions_listing_witness :
  undecidedWorkspaces sample_listing_after = undecided sample_status
  ∧ NoDup (undecidedDependents sample_listing_after)
  ∧ (∀ workspace,
       workspace ∈ undecidedDependents sample_listing_after →
       workspace ∈ workspaces sample_project
       ∧ private (manifest workspace) = false
       ∧ version (manifest workspace) ≠ None)
  ∧ NoDup (Map_keys (fullListing sample_listing_after))
  ∧ (∀ key workspace,
       Map_get (fullListing sample_listing_after) key = Some workspace →
       workspace ∈ undecidedWorkspaces sample_listing_after
                   ++ undecidedDependents sample_listing_after).
Proof.
  apply (applyDecisions_listing sample_project sample_status
           [(sample_A, patch)] sample_listing_after).
  by_evaluation.
Defined.


Lemma executeInteractive_without_the_form_witness :
  executeInteractive sample_project sample_owner [] sample_base
    sample_keys_A_first
  = Return (None, []).
Proof.
  apply (proj2 (executeInteractive_without_the_form sample_project
                  sample_owner [] sample_base sample_keys_A_first)).
  reflexivity.
Defined.

Lemma executeStandard_reports_each_once_witness :
  ∃ code report,
    executeStandard sample_project sample_owner sample_files
      "0a1b2c3d4e5f" "previous release" sample_base
    = Return (code, report)
    ∧ reportedErrors report
      = (NoStrategy
           <$> undecided (fetchWorkspacesStatus
                            (Set_of (sample_owner <$> sample_files))
                            sample_base))
        ++ ((λ pair, NoStrategyButDepends pair.1 pair.2) <$> []).
Proof.
  apply (executeStandard_reports_each_once sample_project sample_owner
           sample_files "0a1b2c3d4e5f" "previous release" sample_base []).
  by_evaluation.
Defined.


Lemma fetchChangedFiles_reads_lines_witness :
  fetchChangedFiles_files "/repo"
    ("packages/b/index.js"
     +:+ String CR (String LF "packages/a/index.js"))
  = fetchChangedFiles_files "/repo" "packages/b/index.js"
    ++ fetchChangedFiles_files "/repo" "packages/a/index.js"
  ∧ fetchChangedFiles_files "/repo" EmptyString = [].
Proof.
  apply (fetchChangedFiles_reads_lines "/repo" "packages/b/index.js"
           "packages/a/index.js" true).
  by_decision.
Defined.

Lemma fetchChangedFiles_is_a_sorted_set_witness :
  ∃ localStdout untrackedStdout,
    git_strict ["diff"; "--name-only"; "0a1b2c3"] "/repo"
    = Return localStdout
    ∧ git_strict ["ls-files"; "--others"; "--exclude-standard"] "/repo"
      = Return untrackedStdout
    ∧ NoDup ["/repo/packages/a/index.js"; "/repo/packages/a/new.js";
             "/repo/packages/b/index.js"]
    ∧ sublist ["/repo/packages/a/index.js"; "/repo/packages/a/new.js";
               "/repo/packages/b/index.js"]
        (Array_sort (fetchChangedFiles_files "/repo" localStdout
                     ++ fetchChangedFiles_files "/repo" untrackedStdout))
    ∧ ∀ file,
        file ∈ ["/repo/packages/a/index.js"; "/repo/packages/a/new.js";
                "/repo/packages/b/index.js"]
        ↔ ∃ line,
            (line ∈ split_newlines localStdout
             ∨ line ∈ split_newlines untrackedStdout)
            ∧ line ≠ EmptyString
            ∧ file = ppath_resolve "/repo" (npath_toPortablePath line).
Proof.
  apply (fetchChangedFiles_is_a_sorted_set "/repo" "0a1b2c3"
           ["/repo/packages/a/index.js"; "/repo/packages/a/new.js";
            "/repo/packages/b/index.js"]).
  - intros array. apply merge_sort_Permutation.
  - by_evaluation.
Defined.

Lemma fetchRoot_finds_the_nearest_repository_witness :
  fetchRoot 5 "/repo/packages/a"
  = Some (Return (Nat.iter 2 ppath_dirname "/repo/packages/a")).
Proof.
  assert (2 < 5) as Hturns by lia.
  assert (∀ j, j < 2 →
               existsPromise
                 (ppath_join (Nat.iter j ppath_dirname "/repo/packages/a")
                    ".git") = false) as Hnone.
  { intros j Hj. destruct j as [|[|j]]; [by_evaluation | by_evaluation | lia]. }
  apply (proj1 (fetchRoot_finds_the_nearest_repository "/repo/packages/a"
                  2 5 Hturns Hnone)).
  by_evaluation.
Defined.

Lemma changed_workspace_is_classified_by_its_target_witness :
  fetchWorkspacesStatus [sample_declined] sample_base
  = {| decided := [sample_declined]; undecided := []; declined := [] |}.
Proof.
  apply (proj1 (changed_workspace_is_classified_by_its_target sample_declined
                  sample_base ltac:(discriminate) ltac:(discriminate))).
  by exists "1.0.0".
Defined.

Lemma setDecision_keeps_the_order_of_entry_witness :
  setDecision [(sample_A, patch)] sample_B decline
  = [(sample_A, patch)] ++ [(sample_B, decline)].
Proof.
  apply (proj1 (setDecision_keeps_the_order_of_entry [(sample_A, patch)]
                  sample_B decline)).
  - discriminate.
  - reflexivity.
Defined.
